(** * PK-Formula: closed-form solver and verifier

    Shallow embedding of [src/c/pk_formula.c]: the two C functions
    [pk_formula] and [verify_solution], over a flat memory of [double]
    cells, and of [print_array] of [src/c/examples/example_basic.c].
    The functions are written over an interface of the arithmetic they
    use; the program is its instance at IEEE-754 binary64, with the
    [pow] of the C library as a parameter. *)

From Stdlib Require Import ZArith Floats Lia String List.
From stdpp Require Import base option gmap.

Open Scope Z_scope.

(** ** The arithmetic the code uses *)

(** The operations of [double] that the two functions use: the literals
    [0.0], [1.0] and [1e-10], the conversion of an [int], the four
    operations, [fabs], the comparison [<], and [pow] of [<math.h>], which
    the repository calls and does not define. *)
Class Arith (F : Type) := {
  fzero : F;
  fone : F;
  ftol : F;
  of_int : Z -> F;
  fadd : F -> F -> F;
  fsub : F -> F -> F;
  fmul : F -> F -> F;
  fdiv : F -> F -> F;
  fabs : F -> F;
  flt : F -> F -> bool;
  pow : F -> F -> F
}.

Declare Scope arith_scope.
Delimit Scope arith_scope with ar.
Infix "+" := fadd : arith_scope.
Infix "-" := fsub : arith_scope.
Infix "*" := fmul : arith_scope.
Infix "/" := fdiv : arith_scope.
Infix "<?" := flt : arith_scope.

(** ** Memory, pointers and the program monad *)

(** A pointer to [double] is an address counted in [double] cells; [NULL]
    is address 0.  [INT_MIN] and [INT_MAX] bound the C [int] argument
    [n]. *)
Abbreviation addr := Z.
Definition NULL : addr := 0.
Definition INT_MAX : Z := 2147483647.
Definition INT_MIN : Z := -2147483648.

(** The state a call can touch: the allocated [double] cells and the lines
    written to [stderr]. *)
Record state (F : Type) := State {
  mem : gmap Z F;
  stderr : list string
}.
Arguments State {F} _ _.
Arguments mem {F} _.
Arguments stderr {F} _.

(** A C statement sequence: it runs from a state, and either returns a
    value and a state or faults ([None]: an access outside the allocated
    cells, undefined behaviour in C). *)
Definition prog (F A : Type) : Type := state F -> option (A * state F).

#[global] Instance prog_ret {F} : MRet (prog F) :=
  fun A (v : A) s => Some (v, s).

#[global] Instance prog_bind {F} : MBind (prog F) :=
  fun A B (k : A -> prog F B) (c : prog F A) s =>
    match c s with
    | Some (v, s') => k v s'
    | None => None
    end.

(** [ptr[i]] read. *)
Definition load {F} (ptr : addr) (i : Z) : prog F F :=
  fun s => match mem s !! (ptr + i) with
           | Some v => Some (v, s)
           | None => None
           end.

(** [ptr[i] = v]. *)
Definition store {F} (ptr : addr) (i : Z) (v : F) : prog F unit :=
  fun s => match mem s !! (ptr + i) with
           | Some _ => Some (tt, State (<[ptr + i := v]> (mem s)) (stderr s))
           | None => None
           end.

(** [fprintf(stderr, msg)]. *)
Definition eprint {F} (msg : string) : prog F unit :=
  fun s => Some (tt, State (mem s) (stderr s ++ [msg])).

(** [for (int i = i0; i < n; i++) body], threading the locals [acc] the
    body updates.  The counter runs in [Z]: it stays below [n <= INT_MAX],
    so [i++] never overflows.  [fuel] counts the iterations left. *)
Fixpoint for_loop {F A} (fuel : nat) (i n : Z)
    (body : Z -> A -> prog F A) (acc : A) : prog F A :=
  match fuel with
  | O => mret acc
  | S fuel' =>
      if i <? n
      then acc' ← body i acc; for_loop fuel' (i + 1) n body acc'
      else mret acc
  end.

Definition for_ {F A} (i0 n : Z) (body : Z -> A -> prog F A) (acc : A)
    : prog F A :=
  for_loop (Z.to_nat (n - i0)) i0 n body acc.

Definition nl : string := String (Ascii.ascii_of_nat 10) EmptyString.

(** The two diagnostics of the source. *)
Definition msg_size : string := "Error: n must be positive" ++ nl.
Definition msg_null : string := "Error: NULL pointer provided" ++ nl.

(** ** The two functions *)

Section Program.
Context {F : Type} {Ar : Arith F}.

(** [int pk_formula(const double *a, const double *p, double b,
    double k, int n, double *x)] *)
Definition pk_formula (a p : addr) (b k : F) (n : Z) (x : addr)
    : prog F Z :=
  if n <=? 0 then
    _ ← eprint msg_size; mret (-1)
  else if (a =? NULL) || (p =? NULL) || (x =? NULL) then
    _ ← eprint msg_null; mret (-1)
  else
    a0 ← load a 0;
    p0 ← load p 0;
    _ ← store x 0 (pow ((b - of_int (n - 1) * k) / a0) (fone / p0))%ar;
    _ ← for_ 1 n (fun i (_ : unit) =>
           ai ← load a i;
           pi ← load p i;
           store x i (pow (k / ai) (fone / pi))%ar) tt;
    mret 0.

(** [int verify_solution(const double *x, const double *a,
    const double *p, double b, int n, double *error)] *)
Definition verify_solution (x a p : addr) (b : F) (n : Z) (error : addr)
    : prog F Z :=
  if (x =? NULL) || (a =? NULL) || (p =? NULL) || (error =? NULL) then
    _ ← eprint msg_null; mret 0
  else
    sum ← for_ 0 n (fun i (sum : F) =>
             ai ← load a i;
             xi ← load x i;
             pi ← load p i;
             mret (sum + ai * pow xi pi)%ar) fzero;
    _ ← store error 0 (fabs (sum - b)%ar);
    e ← load error 0;
    mret (if (e <? ftol)%ar then 1 else 0).

(** *** What the specification says the arrays hold *)

(** The solution vector of the specification, component [i], from the
    contents [A], [P] of the coefficient and exponent arrays. *)
Definition solution (A P : Z -> F) (b k : F) (n : Z) (i : Z) : F :=
  if i =? 0
  then (pow ((b - of_int (n - 1) * k) / A 0) (fone / P 0))%ar
  else (pow (k / A i) (fone / P i))%ar.

(** The constraint sum over the first [j] indices, accumulated from
    [0.0] in index order. *)
Fixpoint constraint_sum (A X P : Z -> F) (j : nat) : F :=
  match j with
  | O => fzero
  | S j' =>
      (constraint_sum A X P j'
       + A (Z.of_nat j') * pow (X (Z.of_nat j')) (P (Z.of_nat j')))%ar
  end.



(** The array of [n] cells at [ptr] holds [V 0 .. V (n-1)]. *)
Definition array_at (s : state F) (ptr : addr) (n : Z) (V : Z -> F)
    : Prop :=
  forall i, 0 <= i < n -> mem s !! (ptr + i) = Some (V i).

(** The [n] cells at [ptr] are allocated. *)
Definition allocated (s : state F) (ptr : addr) (n : Z) : Prop :=
  forall i, 0 <= i < n -> is_Some (mem s !! (ptr + i)).

(** Writing [x[i]] does not touch a cell of [src] that is read later. *)
Definition no_clobber (x src : addr) (n : Z) : Prop :=
  forall i j, 0 <= i -> i < j -> j < n -> x + i <> src + j.

(** The arrays of [n] cells at [x] and at [src] do not overlap. *)
Definition disjoint (x src : addr) (n : Z) : Prop :=
  forall i j, 0 <= i < n -> 0 <= j < n -> x + i <> src + j.

(** The state after [x[0]] has been written and the loop has run up
    to index [i]: the first [i] cells of [x] hold the solution, the rest
    of the memory and [stderr] are as at entry. *)
Definition solved_upto (s : state F) (x : addr) (A P : Z -> F)
    (b k : F) (n i : Z) (s' : state F) : Prop :=
  (forall j, 0 <= j < i ->
     mem s' !! (x + j) = Some (solution A P b k n j)) /\
  (forall q, ~ (x <= q < x + i) -> mem s' !! q = mem s !! q) /\
  stderr s' = stderr s.

End Program.

(** ** The binary64 instance *)

(** [(double) z] for an [int] [z]: exact, every [int] is a binary64
    value. *)
Definition int_to_double (z : Z) : float :=
  if z <? 0
  then PrimFloat.opp (PrimFloat.of_uint63 (Uint63.of_Z (- z)))
  else PrimFloat.of_uint63 (Uint63.of_Z z).

(** The arithmetic of the C code: IEEE-754 binary64, round to nearest
    even, each operation rounded on its own (no fused multiply-add, no
    excess precision), with [libm_pow] for the [pow] the program is
    linked with.  [ftol] is the binary64 value of the literal [1e-10]. *)
Definition binary64 (libm_pow : float -> float -> float) : Arith float := {|
  fzero := 0%float;
  fone := 1%float;
  ftol := 0x1.b7cdfd9d7bdbbp-34%float;
  of_int := int_to_double;
  fadd := PrimFloat.add;
  fsub := PrimFloat.sub;
  fmul := PrimFloat.mul;
  fdiv := PrimFloat.div;
  fabs := PrimFloat.abs;
  flt := PrimFloat.ltb;
  pow := libm_pow
|}.

Definition is_nan (x : float) : bool := negb (PrimFloat.eqb x x).
Definition is_inf (x : float) : bool :=
  PrimFloat.eqb (PrimFloat.abs x) infinity.
Definition is_finite (x : float) : bool :=
  PrimFloat.ltb (PrimFloat.abs x) infinity.
Definition is_zero (x : float) : bool := PrimFloat.eqb x 0%float.
Definition is_neg_zero (x : float) : bool :=
  match Prim2SF x with
  | S754_zero true => true
  | _ => false
  end.

(** [y] is an integer, and an odd one, read off its mantissa and
    exponent. *)
Definition is_integer (y : float) : bool :=
  match Prim2SF y with
  | S754_zero _ => true
  | S754_finite _ m e =>
      (0 <=? e) || (Z.land (Zpos m) (Z.ones (- e)) =? 0)
  | _ => false
  end.

Definition is_odd_integer (y : float) : bool :=
  match Prim2SF y with
  | S754_finite _ m e =>
      if 0 <? e then false
      else is_integer y && Z.odd (Z.shiftr (Zpos m) (- e))
  | _ => false
  end.

Definition sign_bit (x : float) : bool :=
  match Prim2SF x with
  | S754_zero s | S754_infinity s | S754_finite s _ _ => s
  | S754_nan => false
  end.

(** A reference [pow] to run examples with.  It answers as ISO C Annex F
    (F.10.4.4) fixes [pow] on zeros, infinities, NaNs, a unit base and a
    negative base under a non-integer exponent, and on the exponents 1, 2,
    -1 and 1/2 it answers with the one correctly rounded operation that
    computes the power ([x], [x*x], [1/x], [sqrt x]).  Other operands are
    outside what it covers (it answers NaN there); no example below
    evaluates it on them. *)
Definition pow_ref (x y : float) : float :=
  let ax := PrimFloat.abs x in
  if is_zero y then 1%float
  else if PrimFloat.eqb x 1%float then 1%float
  else if is_nan x || is_nan y then nan
  else if is_inf y then
    if PrimFloat.eqb ax 1%float then 1%float
    else if xorb (PrimFloat.ltb ax 1%float) (sign_bit y)
         then 0%float else infinity
  else if is_inf x then
    if sign_bit x && is_odd_integer y
    then (if sign_bit y then (-0)%float else neg_infinity)
    else (if sign_bit y then 0%float else infinity)
  else if is_zero x then
    if sign_bit x && is_odd_integer y
    then (if sign_bit y then neg_infinity else (-0)%float)
    else (if sign_bit y then infinity else 0%float)
  else if sign_bit x && negb (is_integer y) then nan
  else if PrimFloat.eqb y 1%float then x
  else if PrimFloat.eqb y 2%float then PrimFloat.mul x x
  else if PrimFloat.eqb y (-1)%float then PrimFloat.div 1%float x
  else if PrimFloat.eqb y 0.5%float then PrimFloat.sqrt x
  else nan.

(** The program as the examples run it. *)
Abbreviation c99 := (binary64 pow_ref).

(** ** States to run examples from *)

(** The cells of an array at [ptr] holding [vs]. *)
Fixpoint array_cells {F} (ptr : addr) (vs : list F) : list (Z * F) :=
  match vs with
  | [] => []
  | v :: vs' => (ptr, v) :: array_cells (ptr + 1) vs'
  end.

Definition state_of {F} (cells : list (Z * F)) : state F :=
  State (list_to_map cells) [].

(** The contents of a list as an index function ([d] past the end). *)
Definition nth_cell {F} (d : F) (vs : list F) (i : Z) : F :=
  nth (Z.to_nat i) vs d.

(** A caller's memory: the coefficients at address 100, the exponents at
    200, the output array at 300 and the error cell at 400. *)
Definition layout {F} (av pv xv : list F) (e : F) : state F :=
  state_of (array_cells 100 av ++ array_cells 200 pv
            ++ array_cells 300 xv ++ [(400, e)]).

(** What a caller observes of a call: the value returned and the cell at
    [q] afterwards. *)
Definition outcome {F A} (r : option (A * state F)) (q : addr)
    : option (A * option F) :=
  match r with
  | Some (v, s') => Some (v, mem s' !! q)
  | None => None
  end.

(** ** The example driver's printing helper *)

(** [void print_array(const char *name, const double *arr, int n)] of
    [examples/example_basic.c].  [fmt4] stands for [printf]'s conversion
    ["%.4f"] of a [double]; the value returned is the text the call
    sends to [stdout], piece after piece in the order of the [printf]
    calls. *)
Definition print_array {F} (fmt4 : F -> string) (name : string)
    (arr : addr) (n : Z) : prog F string :=
  out ← for_ 0 n (fun i (out : string) =>
            v ← load arr i;
            mret (if (i <? n - 1)%Z
                  then ((out ++ fmt4 v) ++ ", ")%string
                  else (out ++ fmt4 v)%string))
          (name ++ ": [")%string;
  mret (out ++ "]" ++ nl)%string.

(** ** Running the program monad *)

Section Monad.
Context {F : Type}.

Lemma bind_some {A B} (c : prog F A) (k : A -> prog F B) s v s' :
  c s = Some (v, s') -> (c ≫= k) s = k v s'.
Proof. intros E. unfold mbind, prog_bind. now rewrite E. Qed.

Lemma load_some (ptr : addr) i (v : F) s :
  mem s !! (ptr + i) = Some v -> load ptr i s = Some (v, s).
Proof. intros E. unfold load. now rewrite E. Qed.

Lemma store_some (ptr : addr) i (v : F) s :
  is_Some (mem s !! (ptr + i)) ->
  store ptr i v s =
    Some (tt, State (<[ptr + i := v]> (mem s)) (stderr s)).
Proof. intros [w E]. unfold store. now rewrite E. Qed.

(** Invariant rule of the [for] loop: a body that keeps [Inv] below the
    bound runs to the end, with [Inv] at the exit value of the counter. *)
Lemma for_loop_inv {A} (Inv : Z -> A -> state F -> Prop)
    (body : Z -> A -> prog F A) (n : Z) :
  (forall i acc s, i < n -> Inv i acc s ->
     exists acc' s', body i acc s = Some (acc', s') /\
                     Inv (i + 1) acc' s') ->
  forall fuel i acc s,
    n - i <= Z.of_nat fuel -> Inv i acc s ->
    exists acc' s', for_loop fuel i n body acc s = Some (acc', s') /\
                    Inv (Z.max i n) acc' s'.
Proof.
  intros Hbody fuel.
  induction fuel as [|fuel IH]; intros i acc s Hfuel Hinv; simpl.
  - exists acc, s. split; [reflexivity|].
    replace (Z.max i n) with i by lia. exact Hinv.
  - destruct (Z.ltb_spec i n) as [Hlt|Hge].
    + destruct (Hbody i acc s Hlt Hinv) as (acc1 & s1 & Hrun & Hinv1).
      rewrite (bind_some _ _ _ _ _ Hrun).
      destruct (IH (i + 1) acc1 s1) as (acc2 & s2 & Hrest & Hinv2);
        [lia | exact Hinv1 |].
      exists acc2, s2. split; [exact Hrest|].
      replace (Z.max i n) with (Z.max (i + 1) n) by lia. exact Hinv2.
    + exists acc, s. split; [reflexivity|].
      replace (Z.max i n) with i by lia. exact Hinv.
Qed.

Lemma for_inv {A} (Inv : Z -> A -> state F -> Prop)
    (body : Z -> A -> prog F A) (i0 n : Z) acc s :
  (forall i acc s, i < n -> Inv i acc s ->
     exists acc' s', body i acc s = Some (acc', s') /\
                     Inv (i + 1) acc' s') ->
  Inv i0 acc s ->
  exists acc' s', for_ i0 n body acc s = Some (acc', s') /\
                  Inv (Z.max i0 n) acc' s'.
Proof.
  intros Hbody Hinv. unfold for_.
  apply for_loop_inv; [exact Hbody | lia | exact Hinv].
Qed.

End Monad.

(** ** The solver *)

Section Solver.
Context {F : Type} {Ar : Arith F}.

Lemma pk_formula_size (a p x : addr) (b k : F) n s :
  n <= 0 ->
  pk_formula a p b k n x s =
    Some (-1, State (mem s) (stderr s ++ [msg_size])).
Proof.
  intros Hn. unfold pk_formula.
  destruct (Z.leb_spec n 0); [reflexivity | lia].
Qed.

Lemma pk_formula_null (a p x : addr) (b k : F) n s :
  0 < n -> a = NULL \/ p = NULL \/ x = NULL ->
  pk_formula a p b k n x s =
    Some (-1, State (mem s) (stderr s ++ [msg_null])).
Proof.
  intros Hn Hnull. unfold pk_formula.
  destruct (Z.leb_spec n 0); [lia|].
  assert ((a =? NULL) || (p =? NULL) || (x =? NULL) = true) as ->.
  { destruct Hnull as [->| [->| ->]]; simpl;
      rewrite ?orb_true_r; reflexivity. }
  reflexivity.
Qed.

Lemma solved_upto_read s x A P b k n i s' src V :
  solved_upto s x A P b k n i s' ->
  array_at s src n V -> no_clobber x src n ->
  0 <= i < n -> mem s' !! (src + i) = Some (V i).
Proof.
  intros (_ & Hframe & _) Hsrc Hnc Hi.
  rewrite Hframe; [apply Hsrc; lia|].
  intros Hin. apply (Hnc (src + i - x) i); lia.
Qed.

Lemma solved_upto_step s x A P b k n i s' :
  solved_upto s x A P b k n i s' -> 0 <= i ->
  solved_upto s x A P b k n (i + 1)
    (State (<[x + i := solution A P b k n i]> (mem s')) (stderr s')).
Proof.
  intros (Hsol & Hframe & Herr) Hi. repeat split; simpl.
  - intros j Hj. destruct (Z.eq_dec j i) as [->|Hne].
    + apply lookup_insert_eq.
    + rewrite lookup_insert_ne by lia. apply Hsol. lia.
  - intros q Hq. rewrite lookup_insert_ne by lia. apply Hframe. lia.
  - exact Herr.
Qed.

Lemma pk_formula_run (a p x : addr) (b k : F) (n : Z) (A P : Z -> F) s :
  1 <= n -> a <> NULL -> p <> NULL -> x <> NULL ->
  array_at s a n A -> array_at s p n P -> allocated s x n ->
  no_clobber x a n -> no_clobber x p n ->
  exists s', pk_formula a p b k n x s = Some (0, s') /\
             solved_upto s x A P b k n n s'.
Proof.
  intros Hn Ha Hp Hx HA HP Hal Hca Hcp. unfold pk_formula.
  destruct (Z.leb_spec n 0); [lia|].
  destruct (Z.eqb_spec a NULL); [contradiction|].
  destruct (Z.eqb_spec p NULL); [contradiction|].
  destruct (Z.eqb_spec x NULL); [contradiction|]. simpl.
  rewrite (bind_some _ _ s (A 0) s) by (apply load_some, HA; lia).
  rewrite (bind_some _ _ s (P 0) s) by (apply load_some, HP; lia).
  erewrite bind_some by (apply store_some, Hal; lia).
  assert (solved_upto s x A P b k n 0 s) as Hinit.
  { split; [intros; lia | split; reflexivity]. }
  apply solved_upto_step in Hinit; [|lia]. simpl in Hinit.
  set (s1 := State _ _) in *.
  destruct (for_inv
              (fun i (_ : unit) s' =>
                 1 <= i <= n /\ solved_upto s x A P b k n i s')
              (fun i (_ : unit) =>
                 ai ← load a i; pi ← load p i;
                 store x i (pow (k / ai) (fone / pi))%ar)
              1 n tt s1) as ([] & s2 & Hrun & _ & Hfin).
  - intros i [] s' Hi [Hrange Hinv].
    pose proof (solved_upto_read _ _ _ _ _ _ _ _ _ a A Hinv HA Hca) as Ra.
    pose proof (solved_upto_read _ _ _ _ _ _ _ _ _ p P Hinv HP Hcp) as Rp.
    exists tt. eexists. split.
    + rewrite (bind_some _ _ s' (A i) s') by (apply load_some, Ra; lia).
      rewrite (bind_some _ _ s' (P i) s') by (apply load_some, Rp; lia).
      apply store_some. destruct Hinv as (_ & Hframe & _).
      rewrite Hframe by lia. apply Hal. lia.
    + split; [lia|].
      replace (pow (k / A i) (fone / P i))%ar
        with (solution A P b k n i).
      * apply solved_upto_step; [exact Hinv | lia].
      * unfold solution. destruct (Z.eqb_spec i 0); [lia | reflexivity].
  - split; [lia | exact Hinit].
  - rewrite (bind_some _ _ _ _ _ Hrun).
    exists s2. split; [reflexivity|].
    replace (Z.max 1 n) with n in Hfin by lia. exact Hfin.
Qed.

(** C1: with [n >= 1] and non-NULL arrays [a], [p], [x] of [n] cells,
    [pk_formula] returns 0 and leaves in [x] exactly
    [x[0] = pow((b - (n-1)*k) / a[0], 1/p[0])] and
    [x[i] = pow(k / a[i], 1/p[i])] for [1 <= i < n], in one pass of the
    loop: no cell outside [x[0..n)] changes and nothing goes to
    [stderr]. *)
Theorem pk_formula_correct (a p x : addr) (b k : F) (n : Z)
    (A P : Z -> F) (s : state F) :
  1 <= n <= INT_MAX -> a <> NULL -> p <> NULL -> x <> NULL ->
  array_at s a n A -> array_at s p n P -> allocated s x n ->
  no_clobber x a n -> no_clobber x p n ->
  exists s', pk_formula a p b k n x s = Some (0, s') /\
    mem s' !! x =
      Some (pow ((b - of_int (n - 1) * k) / A 0) (fone / P 0))%ar /\
    (forall i, 1 <= i < n ->
       mem s' !! (x + i) = Some (pow (k / A i) (fone / P i))%ar) /\
    (forall q, ~ (x <= q < x + n) -> mem s' !! q = mem s !! q) /\
    stderr s' = stderr s.
Proof.
  intros [Hn _] Ha Hp Hx HA HP Hal Hca Hcp.
  destruct (pk_formula_run a p x b k n A P s)
    as (s' & Hrun & Hsol & Hframe & Herr); try assumption.
  exists s'. repeat split; try assumption.
  - replace x with (x + 0) at 1 by lia. rewrite Hsol by lia. reflexivity.
  - intros i Hi. rewrite Hsol by lia. unfold solution.
    destruct (Z.eqb_spec i 0); [lia | reflexivity].
Qed.

End Solver.

(** ** The verifier *)

Section Verifier.
Context {F : Type} {Ar : Arith F}.

Lemma verify_solution_null (x a p error : addr) (b : F) n s :
  x = NULL \/ a = NULL \/ p = NULL \/ error = NULL ->
  verify_solution x a p b n error s =
    Some (0, State (mem s) (stderr s ++ [msg_null])).
Proof.
  intros Hnull. unfold verify_solution.
  assert ((x =? NULL) || (a =? NULL) || (p =? NULL) || (error =? NULL)
          = true) as ->.
  { destruct Hnull as [->| [->| [->| ->]]]; simpl;
      rewrite ?orb_true_r; reflexivity. }
  reflexivity.
Qed.

Lemma constraint_sum_next (A X P : Z -> F) i :
  0 <= i ->
  constraint_sum A X P (Z.to_nat (i + 1)) =
    (constraint_sum A X P (Z.to_nat i) + A i * pow (X i) (P i))%ar.
Proof.
  intros Hi. replace (Z.to_nat (i + 1)) with (S (Z.to_nat i)) by lia.
  simpl. now rewrite Z2Nat.id by lia.
Qed.

(** The summation loop reads the three arrays, leaves the state alone
    and ends with the constraint sum in the local [sum]. *)
Lemma sum_loop_run (x a p : addr) (n : Z) (X A P : Z -> F) s :
  array_at s x n X -> array_at s a n A -> array_at s p n P ->
  for_ 0 n (fun i (sum : F) =>
              ai ← load a i; xi ← load x i; pi ← load p i;
              mret (sum + ai * pow xi pi)%ar) fzero s =
    Some (constraint_sum A X P (Z.to_nat n), s).
Proof.
  intros HX HA HP.
  destruct (for_inv
              (fun i (sum : F) s' =>
                 s' = s /\ 0 <= i /\
                 sum = constraint_sum A X P (Z.to_nat i))
              (fun i (sum : F) =>
                 ai ← load a i; xi ← load x i; pi ← load p i;
                 mret (sum + ai * pow xi pi)%ar)
              0 n fzero s) as (sum & s' & Hrun & -> & _ & ->).
  - intros i sum s' Hi (-> & Hpos & ->).
    eexists. exists s. split.
    + rewrite (bind_some _ _ s (A i) s) by (apply load_some, HA; lia).
      rewrite (bind_some _ _ s (X i) s) by (apply load_some, HX; lia).
      rewrite (bind_some _ _ s (P i) s) by (apply load_some, HP; lia).
      reflexivity.
    + split; [reflexivity|]. split; [lia|].
      now rewrite constraint_sum_next.
  - split; [reflexivity|]. split; [lia | reflexivity].
  - rewrite Hrun. do 3 f_equal. lia.
Qed.

Lemma verify_solution_run (x a p error : addr) (b : F) (n : Z)
    (X A P : Z -> F) s :
  x <> NULL -> a <> NULL -> p <> NULL -> error <> NULL ->
  array_at s x n X -> array_at s a n A -> array_at s p n P ->
  is_Some (mem s !! error) ->
  verify_solution x a p b n error s =
    let err := fabs (constraint_sum A X P (Z.to_nat n) - b)%ar in
    Some (if (err <? ftol)%ar then 1 else 0,
          State (<[error := err]> (mem s)) (stderr s)).
Proof.
  intros Hx Ha Hp He HX HA HP Hal. unfold verify_solution.
  destruct (Z.eqb_spec x NULL); [contradiction|].
  destruct (Z.eqb_spec a NULL); [contradiction|].
  destruct (Z.eqb_spec p NULL); [contradiction|].
  destruct (Z.eqb_spec error NULL); [contradiction|]. simpl.
  rewrite (bind_some _ _ _ _ _ (sum_loop_run x a p n X A P s HX HA HP)).
  erewrite bind_some by (apply store_some; now rewrite Z.add_0_r).
  erewrite bind_some
    by (apply load_some; simpl; apply lookup_insert_eq).
  now rewrite Z.add_0_r.
Qed.

End Verifier.

(** ** Solving, then verifying *)

Section SolveThenVerify.
Context {F : Type} {Ar : Arith F}.

(** On a well-formed call with an output array apart from the inputs,
    the solver returns 0 and the verifier, run on the state it leaves,
    reports on the error of the solution vector. *)
Lemma solve_then_verify_run (a p x error : addr) (b k : F) (n : Z)
    (A P : Z -> F) (s : state F) :
  1 <= n ->
  a <> NULL -> p <> NULL -> x <> NULL -> error <> NULL ->
  array_at s a n A -> array_at s p n P -> allocated s x n ->
  is_Some (mem s !! error) ->
  disjoint x a n -> disjoint x p n ->
  let err :=
    fabs (constraint_sum A (solution A P b k n) P (Z.to_nat n) - b)%ar in
  exists s1 s2,
    pk_formula a p b k n x s = Some (0, s1) /\
    verify_solution x a p b n error s1 =
      Some (if (err <? ftol)%ar then 1 else 0, s2) /\
    mem s2 !! error = Some err.
Proof.
  intros Hn Ha Hp Hx He HA HP Hal Hale Hda Hdp err.
  destruct (pk_formula_run a p x b k n A P s)
    as (s1 & Hrun & Hsol & Hframe & _); try assumption.
  1, 2: intros i j Hi Hij Hj; (apply Hda || apply Hdp); lia.
  assert (array_at s1 a n A) as HA1.
  { intros i Hi. rewrite Hframe; [now apply HA|].
    intros Hin. apply (Hda (a + i - x) i); lia. }
  assert (array_at s1 p n P) as HP1.
  { intros i Hi. rewrite Hframe; [now apply HP|].
    intros Hin. apply (Hdp (p + i - x) i); lia. }
  assert (is_Some (mem s1 !! error)) as Hale1.
  { destruct (Z_le_gt_dec x error) as [Hle|Hgt];
      [destruct (Z_lt_ge_dec error (x + n)) as [Hlt|Hge]|].
    - replace error with (x + (error - x)) by lia.
      rewrite Hsol by lia. eauto.
    - rewrite Hframe by lia. exact Hale.
    - rewrite Hframe by lia. exact Hale. }
  exists s1. eexists. split; [exact Hrun|].
  rewrite (verify_solution_run x a p error b n
             (solution A P b k n) A P s1); try assumption.
  cbv zeta. fold err. split; [reflexivity|].
  simpl. apply lookup_insert_eq.
Qed.



End SolveThenVerify.

(** ** Facts of binary64 arithmetic *)

Section Binary64Facts.

Lemma SFcompare_refl (x : spec_float) :
  x <> S754_nan -> SFcompare x x = Some Eq.
Proof.
  destruct x as [s|s| |s m e]; intros Hx; simpl;
    try contradiction; try (now destruct s).
  rewrite Z.compare_refl, Pos.compare_cont_refl. now destruct s.
Qed.

Lemma is_nan_spec (x : float) :
  is_nan x = true <-> Prim2SF x = S754_nan.
Proof.
  unfold is_nan. rewrite FloatAxioms.eqb_spec. unfold SFeqb. split.
  - intros Hx. destruct (Prim2SF x) eqn:E; try reflexivity;
      rewrite SFcompare_refl in Hx by discriminate; discriminate.
  - intros ->. reflexivity.
Qed.

Lemma is_zero_spec (x : float) :
  is_zero x = true <-> exists s, Prim2SF x = S754_zero s.
Proof.
  unfold is_zero. rewrite FloatAxioms.eqb_spec. unfold SFeqb.
  change (Prim2SF 0) with (S754_zero false). split.
  - destruct (Prim2SF x) as [s|s| |s m e]; simpl; intros Hx;
      try discriminate; eauto.
    all: destruct s; discriminate.
  - intros [s ->]. reflexivity.
Qed.

Lemma is_inf_spec (x : float) :
  is_inf x = true <-> exists s, Prim2SF x = S754_infinity s.
Proof.
  unfold is_inf. rewrite FloatAxioms.eqb_spec, abs_spec. unfold SFeqb.
  change (Prim2SF infinity) with (S754_infinity false). split.
  - destruct (Prim2SF x) as [s|s| |s m e]; simpl; intros Hx;
      try discriminate; eauto.
  - intros [s ->]. reflexivity.
Qed.

Lemma is_finite_spec (x : float) :
  is_finite x = true <->
  (exists s, Prim2SF x = S754_zero s) \/
  (exists s m e, Prim2SF x = S754_finite s m e).
Proof.
  unfold is_finite. rewrite ltb_spec, abs_spec. unfold SFltb.
  change (Prim2SF infinity) with (S754_infinity false). split.
  - destruct (Prim2SF x) as [s|s| |s m e]; simpl; intros Hx;
      try discriminate; eauto 6.
  - intros [[s ->] | (s & m & e & ->)]; reflexivity.
Qed.

(** A NaN compares below nothing: [NaN < t] is false. *)
Lemma nan_not_lt (e t : float) :
  is_nan e = true -> PrimFloat.ltb e t = false.
Proof.
  rewrite is_nan_spec, ltb_spec. intros ->. reflexivity.
Qed.

(** [fabs(sum - b)] is NaN when [sum] is. *)
Lemma nan_error (sum b : float) :
  is_nan sum = true -> is_nan (PrimFloat.abs (sum - b)) = true.
Proof.
  rewrite !is_nan_spec, abs_spec, sub_spec. intros ->. reflexivity.
Qed.

(** [fabs(sum - b)] is NaN when [b] is. *)
Lemma nan_target (sum b : float) :
  is_nan b = true -> is_nan (PrimFloat.abs (sum - b)) = true.
Proof.
  rewrite !is_nan_spec, abs_spec, sub_spec. intros ->.
  now destruct (Prim2SF sum).
Qed.

(** [fabs(0.0 - b) = fabs(b)], bit for bit. *)
Lemma abs_zero_sub (b : float) :
  PrimFloat.abs (0 - b) = PrimFloat.abs b.
Proof.
  apply Prim2SF_inj. rewrite !abs_spec, sub_spec.
  change (Prim2SF 0) with (S754_zero false).
  destruct (Prim2SF b) as [s|s| |s m e]; try reflexivity.
  now destruct s.
Qed.

(** [0 * k] is a zero for a finite [k], with the sign of [k], and
    subtracting a zero from [b] gives [b] back, unless [b] is the
    negative zero and the zero subtracted is negative too. *)
Lemma sub_zero_mul (b k : float) :
  is_finite k = true -> is_neg_zero b && sign_bit k = false ->
  (b - int_to_double 0 * k)%float = b.
Proof.
  rewrite is_finite_spec. unfold is_neg_zero, sign_bit. intros Hk Hb.
  apply Prim2SF_inj. rewrite sub_spec, mul_spec.
  change (Prim2SF (int_to_double 0)) with (S754_zero false).
  destruct Hk as [[sk Ek] | (sk & mk & ek & Ek)]; rewrite Ek in *;
    destruct (Prim2SF b) as [sb|sb| |sb mb eb]; try reflexivity;
    destruct sb, sk; try reflexivity; discriminate.
Qed.

(** The one case left: [-0 - 0 * k] is [+0] for a finite [k] with its
    sign bit set. *)
Lemma sub_zero_mul_neg (b k : float) :
  is_finite k = true -> is_neg_zero b = true -> sign_bit k = true ->
  (b - int_to_double 0 * k)%float = 0%float.
Proof.
  rewrite is_finite_spec. unfold is_neg_zero, sign_bit. intros Hk Hb Hs.
  apply Prim2SF_inj. rewrite sub_spec, mul_spec.
  change (Prim2SF (int_to_double 0)) with (S754_zero false).
  change (Prim2SF 0) with (S754_zero false).
  destruct Hk as [[sk Ek] | (sk & mk & ek & Ek)]; rewrite Ek in *;
    destruct (Prim2SF b) as [sb|sb| |sb mb eb]; try discriminate;
    destruct sb, sk; try discriminate; reflexivity.
Qed.

(** [0 * k] is NaN for an infinite or NaN [k], and so is [b - 0 * k]. *)
Lemma sub_zero_mul_nan (b k : float) :
  is_finite k = false -> is_nan (b - int_to_double 0 * k)%float = true.
Proof.
  intros Hk. rewrite is_nan_spec, sub_spec, mul_spec.
  change (Prim2SF (int_to_double 0)) with (S754_zero false).
  destruct (Prim2SF k) as [sk|sk| |sk mk ek] eqn:E.
  - rewrite (proj2 (is_finite_spec k)) in Hk by eauto. discriminate.
  - now destruct (Prim2SF b).
  - now destruct (Prim2SF b).
  - rewrite (proj2 (is_finite_spec k)) in Hk by eauto 6. discriminate.
Qed.

Lemma is_nan_eq (v : float) : is_nan v = true -> v = nan.
Proof. rewrite is_nan_spec. intros Hv. now apply Prim2SF_inj. Qed.

Lemma nan_div (a : float) : (nan / a)%float = nan.
Proof. apply Prim2SF_inj. now rewrite div_spec. Qed.

(** Division by a zero coefficient: [k / a] is infinite or NaN. *)
Lemma div_by_zero (k a : float) :
  is_zero a = true -> is_inf (k / a) || is_nan (k / a) = true.
Proof.
  rewrite is_zero_spec. intros [sa Ha].
  apply orb_true_iff. rewrite is_inf_spec, is_nan_spec, div_spec, Ha.
  destruct (Prim2SF k) as [sk|sk| |sk mk ek]; simpl; eauto.
Qed.

(** The reciprocal of a zero exponent: [1.0 / p] is infinite. *)
Lemma recip_zero (p : float) :
  is_zero p = true -> is_inf (1 / p) = true.
Proof.
  rewrite is_zero_spec, is_inf_spec, div_spec. intros [sp ->].
  simpl. eauto.
Qed.

End Binary64Facts.

(** ** Failure paths *)

Section Failures.
Context {F : Type} {Ar : Arith F}.

(** C6: for every [n <= 0], whatever the other arguments, [pk_formula]
    returns -1 and writes no cell: the memory, and with it the output
    array [x], is as at entry (the diagnostic goes to [stderr]). *)
Theorem pk_formula_invalid_size (a p x : addr) (b k : F) (n : Z)
    (s : state F) :
  INT_MIN <= n <= 0 ->
  exists s', pk_formula a p b k n x s = Some (-1, s') /\
             mem s' = mem s.
Proof.
  intros [_ Hn]. eexists. split; [now apply pk_formula_size|].
  reflexivity.
Qed.

Lemma pk_formula_absent (a p x : addr) (b k : F) (n : Z) (s : state F) :
  a = NULL \/ p = NULL \/ x = NULL ->
  exists s', pk_formula a p b k n x s = Some (-1, s') /\
             mem s' = mem s.
Proof.
  intros Hnull. destruct (Z.le_gt_cases n 0) as [Hn|Hn].
  - eexists. split; [now apply pk_formula_size | reflexivity].
  - eexists. split; [apply pk_formula_null; [lia | exact Hnull]|].
    reflexivity.
Qed.

(** C7: [pk_formula] returns -1 whenever [a], [p] or [x] is NULL, and
    [verify_solution] returns its failure value 0 whenever [x], [a],
    [p] or [error] is NULL; neither call writes a cell. *)
Theorem absent_input_fails (a p x error : addr) (b k : F) (n : Z)
    (s : state F) :
  (a = NULL \/ p = NULL \/ x = NULL ->
     exists s', pk_formula a p b k n x s = Some (-1, s') /\
                mem s' = mem s) /\
  (x = NULL \/ a = NULL \/ p = NULL \/ error = NULL ->
     exists s', verify_solution x a p b n error s = Some (0, s') /\
                mem s' = mem s).
Proof.
  split; intros Hnull.
  - now apply pk_formula_absent.
  - eexists. split; [now apply verify_solution_null | reflexivity].
Qed.

(** C10: the verifier's answer to an absent input is the answer it
    gives to a solution out of tolerance.  With [x], [a], [p] or
    [error] NULL it returns 0 and leaves the memory, the caller's error
    cell included, unwritten; on a well-formed call whose error is not
    below the tolerance it returns the same 0 (having stored the
    error). *)
Theorem verify_solution_null_as_invalid (x a p error : addr) (b : F)
    (n : Z) (X A P : Z -> F) (s : state F) :
  (x = NULL \/ a = NULL \/ p = NULL \/ error = NULL ->
     exists s', verify_solution x a p b n error s = Some (0, s') /\
                mem s' = mem s) /\
  (x <> NULL -> a <> NULL -> p <> NULL -> error <> NULL ->
   array_at s x n X -> array_at s a n A -> array_at s p n P ->
   is_Some (mem s !! error) ->
   (fabs (constraint_sum A X P (Z.to_nat n) - b) <? ftol)%ar = false ->
     exists s', verify_solution x a p b n error s = Some (0, s') /\
                mem s' !! error =
                  Some (fabs (constraint_sum A X P (Z.to_nat n) - b)%ar)).
Proof.
  split.
  - intros Hnull. eexists.
    split; [now apply verify_solution_null | reflexivity].
  - intros Hx Ha Hp He HX HA HP Hal Htol.
    rewrite (verify_solution_run x a p error b n X A P s) by assumption.
    cbv zeta. rewrite Htol. eexists. split; [reflexivity|].
    simpl. apply lookup_insert_eq.
Qed.

End Failures.

(** ** The program in binary64 *)

Section Binary64.
Variable libm_pow : float -> float -> float.

Local Abbreviation C := (binary64 libm_pow).

(** C2: with [n >= 1] and non-NULL [x], [a], [p], [error],
    [verify_solution] computes [sum], the sum over [i] in [0, n) of
    [a[i] * pow(x[i], p[i])], stores [fabs(sum - b)] in [*error], and
    returns 1 exactly when that value is below the constant [1e-10],
    and 0 otherwise. *)
Theorem verify_solution_correct (x a p error : addr) (b : float)
    (n : Z) (X A P : Z -> float) (s : state float) :
  1 <= n <= INT_MAX ->
  x <> NULL -> a <> NULL -> p <> NULL -> error <> NULL ->
  array_at s x n X -> array_at s a n A -> array_at s p n P ->
  is_Some (mem s !! error) ->
  let sum := constraint_sum (Ar := C) A X P (Z.to_nat n) in
  let err := PrimFloat.abs (sum - b) in
  verify_solution (Ar := C) x a p b n error s =
    Some (if PrimFloat.ltb err 0x1.b7cdfd9d7bdbbp-34 then 1 else 0,
          State (<[error := err]> (mem s)) (stderr s)).
Proof.
  intros _ Hx Ha Hp He HX HA HP Hal.
  now rewrite (verify_solution_run (Ar := C) x a p error b n X A P s).
Qed.

(** C9: [verify_solution] does not validate [n].  For [n <= 0] and
    non-NULL pointers the loop body never runs: it stores
    [*error = fabs(b)] and returns 1 exactly when [fabs(b) < 1e-10]; in
    particular the empty problem with [b = 0.0], [n = 0] is reported
    valid. *)
Theorem verify_solution_empty (x a p error : addr) (b : float) (n : Z)
    (s : state float) :
  INT_MIN <= n <= 0 ->
  x <> NULL -> a <> NULL -> p <> NULL -> error <> NULL ->
  is_Some (mem s !! error) ->
  verify_solution (Ar := C) x a p b n error s =
    Some (if PrimFloat.ltb (PrimFloat.abs b) 0x1.b7cdfd9d7bdbbp-34
          then 1 else 0,
          State (<[error := PrimFloat.abs b]> (mem s)) (stderr s)) /\
  verify_solution (Ar := C) x a p 0%float 0 error s =
    Some (1, State (<[error := 0%float]> (mem s)) (stderr s)).
Proof.
  intros [_ Hn] Hx Ha Hp He Hal.
  split.
  - rewrite (verify_solution_run (Ar := C) x a p error b n
               (fun _ => 0%float) (fun _ => 0%float) (fun _ => 0%float) s);
      try assumption; try (intros i Hi; lia).
    replace (Z.to_nat n) with O by lia. simpl.
    now rewrite abs_zero_sub.
  - rewrite (verify_solution_run (Ar := C) x a p error 0%float 0
               (fun _ => 0%float) (fun _ => 0%float) (fun _ => 0%float) s);
      try assumption; try (intros i Hi; lia).
    reflexivity.
Qed.

(** C4, amended: for [n = 1] the call succeeds for every [k], the loop
    body never runs and only [x[0]] is written.  For a finite [k] the
    term [(n-1)*k = 0*k] is a zero and [x[0] = pow(b / a[0], 1/p[0])],
    except when [b] is the negative zero and [k] has its sign bit set:
    then [b - 0*k] is [+0] and [x[0] = pow(+0 / a[0], 1/p[0])].  For
    [k] infinite or NaN the term [0*k] is NaN and
    [x[0] = pow(NaN, 1/p[0])]. *)
Theorem pk_formula_single (a p x : addr) (b k : float)
    (A P : Z -> float) (s : state float) :
  a <> NULL -> p <> NULL -> x <> NULL ->
  array_at s a 1 A -> array_at s p 1 P -> allocated s x 1 ->
  exists s', pk_formula (Ar := C) a p b k 1 x s = Some (0, s') /\
    (forall q, q <> x -> mem s' !! q = mem s !! q) /\
    (is_finite k = true -> is_neg_zero b && sign_bit k = false ->
       mem s' !! x = Some (libm_pow (b / A 0) (1 / P 0))) /\
    (is_finite k = true -> is_neg_zero b = true -> sign_bit k = true ->
       mem s' !! x = Some (libm_pow (0 / A 0) (1 / P 0))) /\
    (is_finite k = false ->
       mem s' !! x = Some (libm_pow nan (1 / P 0))).
Proof.
  intros Ha Hp Hx HA HP Hal.
  destruct (pk_formula_run (Ar := C) a p x b k 1 A P s)
    as (s' & Hrun & Hsol & Hframe & _); try assumption; try lia.
  1, 2: intros i j Hi Hij Hj; lia.
  specialize (Hsol 0 ltac:(lia)). rewrite Z.add_0_r in Hsol.
  change (mem s' !! x =
          Some (libm_pow ((b - int_to_double 0 * k) / A 0%Z)
                         (1 / P 0%Z))%float)
    in Hsol.
  exists s'. split; [exact Hrun|]. split; [|split; [|split]].
  - intros q Hq. apply Hframe. lia.
  - intros Hk Hb. now rewrite Hsol, sub_zero_mul.
  - intros Hk Hb Hs. now rewrite Hsol, sub_zero_mul_neg.
  - intros Hk. rewrite Hsol.
    now rewrite (is_nan_eq _ (sub_zero_mul_nan b k Hk)), nan_div.
Qed.

(** C8, amended: a zero coefficient or exponent is no error.  On every
    well-formed call [pk_formula] returns 0, whatever [a] and [p] hold,
    and [x[i]] is [pow] of the operands the formula gives it: the
    quotient by a zero [a[i]] is infinite or NaN and the reciprocal of
    a zero [p[i]] is infinite, and what [x[i]] holds is [pow]'s answer
    to them.  When the sum recomputed by [verify_solution] is NaN, the
    error stored is NaN and the flag returned is 0. *)
Theorem numeric_degeneracy (a p x : addr) (b k : float) (n : Z)
    (A P : Z -> float) (s : state float) :
  1 <= n <= INT_MAX -> a <> NULL -> p <> NULL -> x <> NULL ->
  array_at s a n A -> array_at s p n P -> allocated s x n ->
  no_clobber x a n -> no_clobber x p n ->
  (exists s', pk_formula (Ar := C) a p b k n x s = Some (0, s') /\
              array_at s' x n (solution (Ar := C) A P b k n)) /\
  (forall r i, is_zero (A i) = true ->
     is_inf (r / A i) || is_nan (r / A i) = true) /\
  (forall i, is_zero (P i) = true -> is_inf (1 / P i) = true) /\
  (forall (x' a' p' error : addr) (b' : float) (n' : Z)
          (X' A' P' : Z -> float) (s2 : state float),
     x' <> NULL -> a' <> NULL -> p' <> NULL -> error <> NULL ->
     array_at s2 x' n' X' -> array_at s2 a' n' A' ->
     array_at s2 p' n' P' -> is_Some (mem s2 !! error) ->
     is_nan (constraint_sum (Ar := C) A' X' P' (Z.to_nat n')) = true ->
     verify_solution (Ar := C) x' a' p' b' n' error s2 =
       Some (0, State (<[error := nan]> (mem s2)) (stderr s2))).
Proof.
  intros [Hn _] Ha Hp Hx HA HP Hal Hca Hcp. repeat split.
  - destruct (pk_formula_run (Ar := C) a p x b k n A P s)
      as (s' & Hrun & Hsol & _); try assumption.
    exists s'. split; [exact Hrun|]. intros i Hi. now apply Hsol.
  - intros r i Hz. now apply div_by_zero.
  - intros i Hz. now apply recip_zero.
  - intros x' a' p' error b' n' X' A' P' s2 Hx' Ha' Hp' He HX' HA' HP'
      Hal' Hnan.
    rewrite (verify_solution_run (Ar := C) x' a' p' error b' n'
               X' A' P' s2) by assumption.
    cbv zeta. simpl fabs. simpl flt. simpl fsub. simpl ftol.
    pose proof (nan_error _ b' Hnan) as Herr.
    rewrite (nan_not_lt _ _ Herr). now rewrite (is_nan_eq _ Herr).
Qed.

(** Whatever [pow] computes, the solver's output for a NaN target is
    reported invalid. *)
Lemma solve_then_verify_nan_target (a p x error : addr) (b k : float)
    (n : Z) (A P : Z -> float) (s : state float) :
  1 <= n ->
  a <> NULL -> p <> NULL -> x <> NULL -> error <> NULL ->
  array_at s a n A -> array_at s p n P -> allocated s x n ->
  is_Some (mem s !! error) ->
  disjoint x a n -> disjoint x p n ->
  is_nan b = true ->
  exists s1 s2,
    pk_formula (Ar := C) a p b k n x s = Some (0, s1) /\
    verify_solution (Ar := C) x a p b n error s1 = Some (0, s2) /\
    mem s2 !! error = Some nan.
Proof.
  intros Hn Ha Hp Hx He HA HP Hal Hale Hda Hdp Hb.
  destruct (solve_then_verify_run (Ar := C) a p x error b k n A P s)
    as (s1 & s2 & Hrun & Hver & Herr); try assumption.
  simpl fabs in Hver, Herr. simpl fsub in Hver, Herr.
  simpl flt in Hver. simpl ftol in Hver.
  pose proof (nan_target
                (constraint_sum (Ar := C) A (solution (Ar := C) A P b k n)
                   P (Z.to_nat n)) b Hb) as Hnan.
  rewrite (nan_not_lt _ _ Hnan) in Hver.
  rewrite (is_nan_eq _ Hnan) in Herr.
  exists s1, s2. repeat split; assumption.
Qed.

End Binary64.


(** ** The program on concrete calls *)

(** Discharges [array_at] and [allocated] on a [layout] of at most five
    cells per array, index by index. *)
Ltac cells :=
  let i := fresh "i" in
  let Hi := fresh "Hi" in
  let Hc := fresh "Hc" in
  intros i Hi;
  assert (i = 0 \/ i = 1 \/ i = 2 \/ i = 3 \/ i = 4)%Z as Hc by lia;
  decompose [or] Hc; subst i;
  first [ reflexivity | eexists; reflexivity | exfalso; lia ].

Ltac apart :=
  let i := fresh "i" in
  let j := fresh "j" in
  intros i j; intros; lia.

Section Examples.
Open Scope float_scope.

(** Scenario 2 of the specification, on two variables. *)
Lemma pk_formula_correct_witness :
  exists s',
    pk_formula (Ar := c99) 100 200 25 1 2 300
      (layout [1; 1] [2; 2] [0; 0] 0) = Some (0%Z, s') /\
    mem s' !! 300%Z = Some (pow_ref ((25 - int_to_double 1 * 1) / 1) (1 / 2)) /\
    mem s' !! 301%Z = Some (pow_ref (1 / 1) (1 / 2)).
Proof.
  destruct (pk_formula_correct (Ar := c99) 100 200 300 25 1 2
              (fun _ => 1) (fun _ => 2) (layout [1; 1] [2; 2] [0; 0] 0))
    as (s' & Hrun & H0 & Hi & _);
    [ unfold INT_MAX; lia | discriminate | discriminate | discriminate
    | cells | cells | cells | apart | apart | ].
  exists s'. split; [exact Hrun|]. split; [exact H0|].
  exact (Hi 1%Z ltac:(lia)).
Defined.

(** A one-variable solution checked against its problem. *)
Lemma verify_solution_correct_witness :
  outcome (verify_solution (Ar := c99) 300 100 200 4 1 400
             (layout [1] [2] [2] 7)) 400 = Some (1%Z, Some 0).
Proof.
  rewrite (verify_solution_correct pow_ref 300 100 200 400 4 1
             (fun _ => 2) (fun _ => 1) (fun _ => 2)
             (layout [1] [2] [2] 7));
    [ reflexivity | unfold INT_MAX; lia
    | discriminate | discriminate | discriminate | discriminate
    | cells | cells | cells | eexists; reflexivity ].
Defined.

(** [n = 0] and [n = -1] of the specification's error-handling
    property. *)
Lemma pk_formula_invalid_size_witness :
  (exists s', pk_formula (Ar := c99) 100 200 25 1 0 300
                (layout [1] [2] [7] 0) = Some ((-1)%Z, s') /\
              mem s' = mem (layout [1] [2] [7] 0)) /\
  (exists s', pk_formula (Ar := c99) 100 200 25 1 (-1) 300
                (layout [1] [2] [7] 0) = Some ((-1)%Z, s') /\
              mem s' = mem (layout [1] [2] [7] 0)).
Proof.
  split; apply pk_formula_invalid_size; unfold INT_MIN; lia.
Defined.

Lemma absent_input_fails_witness :
  (exists s', pk_formula (Ar := c99) 100 200 25 1 1 NULL
                (layout [1] [2] [7] 0) = Some ((-1)%Z, s') /\
              mem s' = mem (layout [1] [2] [7] 0)) /\
  (exists s', verify_solution (Ar := c99) 300 100 200 25 1 NULL
                (layout [1] [2] [7] 0) = Some (0%Z, s') /\
              mem s' = mem (layout [1] [2] [7] 0)).
Proof.
  split.
  - apply (absent_input_fails (Ar := c99) 100 200 NULL 400 25 1 1).
    right. right. reflexivity.
  - apply (absent_input_fails (Ar := c99) 100 200 300 NULL 25 1 1).
    right. right. right. reflexivity.
Defined.

(** An absent error cell, and a solution off by 4: both answered 0. *)
Lemma verify_solution_null_as_invalid_witness :
  (exists s', verify_solution (Ar := c99) 300 100 200 5 1 NULL
                (layout [1] [1] [1] 7) = Some (0%Z, s') /\
              mem s' = mem (layout [1] [1] [1] 7)) /\
  (exists s', verify_solution (Ar := c99) 300 100 200 5 1 400
                (layout [1] [1] [1] 7) = Some (0%Z, s') /\
              mem s' !! 400%Z = Some 4).
Proof.
  split.
  - apply (verify_solution_null_as_invalid (Ar := c99) 300 100 200 NULL
             5 1 (fun _ => 1) (fun _ => 1) (fun _ => 1)).
    right. right. right. reflexivity.
  - apply (verify_solution_null_as_invalid (Ar := c99) 300 100 200 400
             5 1 (fun _ => 1) (fun _ => 1) (fun _ => 1)
             (layout [1] [1] [1] 7));
      [ discriminate | discriminate | discriminate | discriminate
      | cells | cells | cells | eexists; reflexivity | reflexivity ].
Defined.

(** The empty problem: [|b| = 3] is out of tolerance, [b = 0] is
    reported valid. *)
Lemma verify_solution_empty_witness :
  verify_solution (Ar := c99) 300 100 200 (-3) 0 400
    (layout [1] [1] [1] 7) =
    Some (0%Z, State (<[400%Z := 3]> (mem (layout [1] [1] [1] 7))) []) /\
  verify_solution (Ar := c99) 300 100 200 0 0 400
    (layout [1] [1] [1] 7) =
    Some (1%Z, State (<[400%Z := 0]> (mem (layout [1] [1] [1] 7))) []).
Proof.
  apply (verify_solution_empty pow_ref 300 100 200 400 (-3) 0
           (layout [1] [1] [1] 7));
    [ unfold INT_MIN; lia
    | discriminate | discriminate | discriminate | discriminate
    | eexists; reflexivity ].
Defined.

(** One variable, [k = 2.5]: [x[0] = pow(9 / 1, 1 / 2) = 3]. *)
Lemma pk_formula_single_witness :
  exists s',
    pk_formula (Ar := c99) 100 200 9 2.5 1 300
      (layout [1] [2] [7] 0) = Some (0%Z, s') /\
    mem s' !! 300%Z = Some (pow_ref (9 / 1) (1 / 2)).
Proof.
  destruct (pk_formula_single pow_ref 100 200 300 9 2.5
              (fun _ => 1) (fun _ => 2) (layout [1] [2] [7] 0))
    as (s' & Hrun & _ & Hfin & _);
    [ discriminate | discriminate | discriminate
    | cells | cells | cells | ].
  exists s'. split; [exact Hrun|].
  apply Hfin; reflexivity.
Defined.

(** A zero exponent and a zero coefficient: the call succeeds. *)
Lemma numeric_degeneracy_witness :
  (exists s',
     pk_formula (Ar := c99) 100 200 3 1 3 300
       (layout [1; 1; 0] [1; 0; -1] [7; 7; 7] 0) = Some (0%Z, s')) /\
  is_inf (1 / 0) = true.
Proof.
  destruct (numeric_degeneracy pow_ref 100 200 300 3 1 3
              (nth_cell 0 [1; 1; 0]) (nth_cell 0 [1; 0; -1])
              (layout [1; 1; 0] [1; 0; -1] [7; 7; 7] 0))
    as ((s' & Hrun & _) & _ & Hrec & _);
    [ unfold INT_MAX; lia | discriminate | discriminate | discriminate
    | cells | cells | cells | apart | apart | ].
  split; [exists s'; exact Hrun|].
  apply (Hrec 1%Z). reflexivity.
Defined.

(** *** The scenarios of the specification *)

(** Scenario 1: [a_i = 1], [p_i = 2], [b = 25], [k = 2.5], [n = 5].  The
    verifier, run after the solver, passes; the error left in [*error]
    is [2^-48]. *)
Example scenario_1 :
  outcome ((pk_formula (Ar := c99) 100 200 25 2.5 5 300
              ≫= fun _ => verify_solution (Ar := c99) 300 100 200 25 5 400)
             (layout (repeat 1 5) (repeat 2 5) (repeat 0 5) 0)) 400
    = Some (1%Z, Some 0x1p-48) /\
  outcome (pk_formula (Ar := c99) 100 200 25 2.5 5 300
             (layout (repeat 1 5) (repeat 2 5) (repeat 0 5) 0)) 300
    = Some (0%Z, Some (PrimFloat.sqrt 15)) /\
  outcome (pk_formula (Ar := c99) 100 200 25 2.5 5 300
             (layout (repeat 1 5) (repeat 2 5) (repeat 0 5) 0)) 304
    = Some (0%Z, Some (PrimFloat.sqrt 2.5)).
Proof. repeat split; reflexivity. Qed.

(** Scenario 2: the same problem with [k = 1]: [x_0 = sqrt 21], the
    other components are 1, and the error is 0. *)
Example scenario_2 :
  outcome ((pk_formula (Ar := c99) 100 200 25 1 5 300
              ≫= fun _ => verify_solution (Ar := c99) 300 100 200 25 5 400)
             (layout (repeat 1 5) (repeat 2 5) (repeat 0 5) 0)) 400
    = Some (1%Z, Some 0) /\
  outcome (pk_formula (Ar := c99) 100 200 25 1 5 300
             (layout (repeat 1 5) (repeat 2 5) (repeat 0 5) 0)) 300
    = Some (0%Z, Some (PrimFloat.sqrt 21)) /\
  outcome (pk_formula (Ar := c99) 100 200 25 1 5 300
             (layout (repeat 1 5) (repeat 2 5) (repeat 0 5) 0)) 304
    = Some (0%Z, Some 1).
Proof. repeat split; reflexivity. Qed.

(** Scenario 3: [n = 20], [b = 100], [k = 5]: every component is
    [sqrt 5], and the error is [2^-46]. *)
Example scenario_3 :
  outcome ((pk_formula (Ar := c99) 100 200 100 5 20 300
              ≫= fun _ =>
                   verify_solution (Ar := c99) 300 100 200 100 20 400)
             (layout (repeat 1 20) (repeat 2 20) (repeat 0 20) 0)) 400
    = Some (1%Z, Some 0x1p-46) /\
  outcome (pk_formula (Ar := c99) 100 200 100 5 20 300
             (layout (repeat 1 20) (repeat 2 20) (repeat 0 20) 0)) 300
    = Some (0%Z, Some (PrimFloat.sqrt 5)) /\
  outcome (pk_formula (Ar := c99) 100 200 100 5 20 300
             (layout (repeat 1 20) (repeat 2 20) (repeat 0 20) 0)) 319
    = Some (0%Z, Some (PrimFloat.sqrt 5)).
Proof. repeat split; reflexivity. Qed.

(** *** Where binary64 departs from the specification *)


(** C4 fails: with [n = 1], [b = 4], [a = [1]], [p = [1]] and
    [k = Inf], the code writes [x[0] = NaN], not
    [pow(b / a[0], 1 / p[0]) = 4]: the term [(n-1)*k = 0 * Inf] is
    NaN. *)
Lemma single_variable_inf_k :
  outcome (pk_formula (Ar := c99) 100 200 4 infinity 1 300
             (layout [1] [1] [7] 0)) 300 = Some (0%Z, Some nan) /\
  outcome (pk_formula (Ar := c99) 100 200 4 infinity 1 300
             (layout [1] [1] [7] 0)) 300
    <> Some (0%Z, Some (pow_ref (4 / 1) (1 / 1))).
Proof.
  split; [reflexivity|]. intros E.
  apply (f_equal (fun r => match r with
                           | Some (_, Some v) => is_nan v
                           | _ => false
                           end)) in E.
  discriminate E.
Qed.

(** The other way the single-variable formula fails: with [b = -0] and
    [k = -1], [a = [1]], [p = [-1]], the residual [b - 0*k] is [+0] and
    the code writes [x[0] = pow(+0, -1) = +Inf], where
    [pow(b / a[0], 1 / p[0]) = pow(-0, -1)] is [-Inf]. *)
Example single_variable_neg_zero :
  outcome (pk_formula (Ar := c99) 100 200 (-0) (-1) 1 300
             (layout [1] [-1] [7] 0)) 300 = Some (0%Z, Some infinity) /\
  pow_ref (-0 / 1) (1 / -1) = neg_infinity.
Proof. split; reflexivity. Qed.


(** C8 fails: with [a = [1; 1; 0]], [p = [1; 0; -1]], [b = 3],
    [k = 1], [n = 3] the call returns 0, and the two affected
    components are finite: [x[1] = pow(1, 1/0) = pow(1, Inf) = 1] and
    [x[2] = pow(1/0, 1/-1) = pow(Inf, -1) = 0]. *)
Lemma degenerate_components_finite :
  is_zero (nth_cell 0 [1; 0; -1] 1) = true /\
  is_zero (nth_cell 0 [1; 1; 0] 2) = true /\
  outcome (pk_formula (Ar := c99) 100 200 3 1 3 300
             (layout [1; 1; 0] [1; 0; -1] [7; 7; 7] 0)) 301
    = Some (0%Z, Some 1) /\
  outcome (pk_formula (Ar := c99) 100 200 3 1 3 300
             (layout [1; 1; 0] [1; 0; -1] [7; 7; 7] 0)) 302
    = Some (0%Z, Some 0) /\
  is_inf 1 || is_nan 1 = false /\
  is_inf 0 || is_nan 0 = false.
Proof. repeat split; reflexivity. Qed.

End Examples.


(** ** More on running the program monad *)

Section MonadInversion.
Context {F : Type}.

Lemma bind_none {A B} (c : prog F A) (k : A -> prog F B) s :
  c s = None -> (c ≫= k) s = None.
Proof. intros E. unfold mbind, prog_bind. now rewrite E. Qed.

Lemma bind_inv {A B} (c : prog F A) (k : A -> prog F B) s r :
  (c ≫= k) s = Some r ->
  exists v s1, c s = Some (v, s1) /\ k v s1 = Some r.
Proof.
  unfold mbind, prog_bind. destruct (c s) as [[v s1]|]; [|discriminate].
  intros E. now exists v, s1.
Qed.

Lemma load_inv (ptr : addr) i (v : F) s s' :
  load ptr i s = Some (v, s') -> s' = s /\ mem s !! (ptr + i) = Some v.
Proof.
  unfold load. destruct (mem s !! (ptr + i)) as [w|] eqn:E; [|discriminate].
  intros [= -> ->]. now split.
Qed.

Lemma store_inv (ptr : addr) i (v : F) s u s' :
  store ptr i v s = Some (u, s') ->
  is_Some (mem s !! (ptr + i)) /\
  s' = State (<[ptr + i := v]> (mem s)) (stderr s).
Proof.
  unfold store. destruct (mem s !! (ptr + i)) as [w|] eqn:E; [|discriminate].
  intros [= _ <-]. split; [eauto | reflexivity].
Qed.

(** The rule of the [for] loop for runs that return: what the body
    keeps, the loop keeps. *)
Lemma for_loop_post {A} (Inv : Z -> A -> state F -> Prop)
    (body : Z -> A -> prog F A) (n : Z) :
  (forall i acc s acc' s', i < n -> Inv i acc s ->
     body i acc s = Some (acc', s') -> Inv (i + 1) acc' s') ->
  forall fuel i acc s acc' s',
    Inv i acc s -> for_loop fuel i n body acc s = Some (acc', s') ->
    exists j, i <= j /\ Inv j acc' s'.
Proof.
  intros Hbody fuel.
  induction fuel as [|fuel IH]; intros i acc s acc' s' Hinv; simpl.
  - intros [= <- <-]. exists i. split; [lia | exact Hinv].
  - destruct (Z.ltb_spec i n) as [Hlt|Hge].
    + intros Hrun. apply bind_inv in Hrun as (acc1 & s1 & Hstep & Hrest).
      destruct (IH (i + 1) acc1 s1 acc' s') as (j & Hj & Hinvj);
        [now apply (Hbody i acc s) | exact Hrest |].
      exists j. split; [lia | exact Hinvj].
    + intros [= <- <-]. exists i. split; [lia | exact Hinv].
Qed.

(** A loop whose body faults at an index it reaches faults. *)
Lemma for_loop_fault {A} (Inv : state F -> Prop)
    (body : Z -> A -> prog F A) (n i0 : Z) :
  (forall i acc s acc' s', Inv s ->
     body i acc s = Some (acc', s') -> Inv s') ->
  (forall acc s, Inv s -> body i0 acc s = None) ->
  forall fuel i acc s,
    i <= i0 < n -> n - i <= Z.of_nat fuel -> Inv s ->
    for_loop fuel i n body acc s = None.
Proof.
  intros Hkeep Hfault fuel.
  induction fuel as [|fuel IH]; intros i acc s Hi Hfuel Hinv; simpl.
  - lia.
  - destruct (Z.ltb_spec i n) as [_|Hge]; [|lia].
    destruct (Z.eq_dec i i0) as [->|Hne].
    + apply bind_none. now apply Hfault.
    + destruct (body i acc s) as [[acc1 s1]|] eqn:Hstep.
      * rewrite (bind_some _ _ _ _ _ Hstep).
        apply IH; [lia | lia | now apply (Hkeep i acc s acc1)].
      * now apply bind_none.
Qed.

End MonadInversion.

(** ** More on the solver *)

Section SolverMore.
Context {F : Type} {Ar : Arith F}.

(** One assignment [x[i] = f(a[i], p[i])] of the solver. *)
Lemma assign_inv (a p x : addr) (f : F -> F -> F) i s u s' :
  (ai ← load a i; pi ← load p i; store x i (f ai pi)) s = Some (u, s') ->
  exists v, is_Some (mem s !! (x + i)) /\
            is_Some (mem s !! (a + i)) /\ is_Some (mem s !! (p + i)) /\
            s' = State (<[x + i := v]> (mem s)) (stderr s).
Proof.
  intros Hrun.
  apply bind_inv in Hrun as (ai & s1 & Ha & Hrun).
  apply load_inv in Ha as [-> Ha].
  apply bind_inv in Hrun as (pi & s2 & Hp & Hrun).
  apply load_inv in Hp as [-> Hp].
  apply store_inv in Hrun as [Hx ->].
  exists (f ai pi). repeat split; eauto.
Qed.

Lemma assign_fault (a p x ptr : addr) (f : F -> F -> F) i s :
  ptr = a \/ ptr = p \/ ptr = x -> mem s !! (ptr + i) = None ->
  (ai ← load a i; pi ← load p i; store x i (f ai pi)) s = None.
Proof.
  intros Hptr Hnone.
  destruct ((ai ← load a i; pi ← load p i; store x i (f ai pi)) s)
    as [[u s']|] eqn:Hrun; [|reflexivity].
  apply assign_inv in Hrun as (v & [vx Hx] & [va Ha] & [vp Hp] & _).
  destruct Hptr as [->| [->| ->]]; congruence.
Qed.

(** The return codes of the solver.  Whenever the call returns, it
    returns -1 exactly on [n <= 0] or a NULL array, with the memory
    untouched and one diagnostic on [stderr] (the size check is made
    first), and 0 otherwise, with nothing on [stderr] and no cell
    outside [x[0..n)] written. *)
Theorem pk_formula_return_codes (a p x : addr) (b k : F) (n : Z)
    (s : state F) (rc : Z) (s' : state F) :
  pk_formula a p b k n x s = Some (rc, s') ->
  (rc = -1 /\ (n <= 0 \/ a = NULL \/ p = NULL \/ x = NULL) /\
   mem s' = mem s /\
   stderr s' = stderr s ++ [if n <=? 0 then msg_size else msg_null]) \/
  (rc = 0 /\ 1 <= n /\ a <> NULL /\ p <> NULL /\ x <> NULL /\
   stderr s' = stderr s /\
   forall q, ~ (x <= q < x + n) -> mem s' !! q = mem s !! q).
Proof.
  unfold pk_formula. destruct (Z.leb_spec n 0) as [Hn|Hn].
  { intros [= <- <-]. left. repeat split; auto. }
  destruct (Z.eqb_spec a NULL) as [Ha|Ha];
    [intros [= <- <-]; left; repeat split; auto|].
  destruct (Z.eqb_spec p NULL) as [Hp|Hp];
    [intros [= <- <-]; left; repeat split; auto|].
  destruct (Z.eqb_spec x NULL) as [Hx|Hx];
    [intros [= <- <-]; left; repeat split; auto|].
  simpl. intros Hrun. right.
  apply bind_inv in Hrun as (a0 & s1 & Ha0 & Hrun).
  apply load_inv in Ha0 as [-> Ha0].
  apply bind_inv in Hrun as (p0 & s2 & Hp0 & Hrun).
  apply load_inv in Hp0 as [-> Hp0].
  apply bind_inv in Hrun as ([] & s3 & Hst & Hrun).
  apply store_inv in Hst as [_ ->].
  apply bind_inv in Hrun as ([] & s4 & Hloop & Hrun).
  injection Hrun as <- <-.
  unfold for_ in Hloop.
  assert (exists j : Z,
             1 <= j /\ 1 <= j /\ stderr s4 = stderr s /\
             forall q, ~ (x <= q < x + n) -> mem s4 !! q = mem s !! q)
    as (j & _ & _ & Herr & Hframe).
  { refine (for_loop_post
              (fun i (_ : unit) t =>
                 1 <= i /\ stderr t = stderr s /\
                 forall q, ~ (x <= q < x + n) -> mem t !! q = mem s !! q)
              _ n _ _ _ _ _ _ _ _ Hloop).
    - intros i [] t [] t' Hi (Hi1 & He & Hf) Hstep.
      apply assign_inv in Hstep as (v & _ & _ & _ & ->). simpl.
      split; [lia|]. split; [exact He|].
      intros q Hq. rewrite lookup_insert_ne by lia. now apply Hf.
    - simpl. split; [lia|]. split; [reflexivity|].
      intros q Hq. apply lookup_insert_ne. lia. }
  repeat split; try assumption. lia.
Qed.

(** The solver reads [a[i]], [p[i]] and writes [x[i]] for every
    [i < n] without a check of its own: when one of these cells is
    missing the call runs out of bounds (it faults). *)
Theorem pk_formula_out_of_bounds (a p x ptr : addr) (b k : F) (n i0 : Z)
    (s : state F) :
  a <> NULL -> p <> NULL -> x <> NULL ->
  ptr = a \/ ptr = p \/ ptr = x ->
  0 <= i0 < n -> mem s !! (ptr + i0) = None ->
  pk_formula a p b k n x s = None.
Proof.
  intros Ha Hp Hx Hptr Hi0 Hnone. unfold pk_formula.
  destruct (Z.leb_spec n 0); [lia|].
  destruct (Z.eqb_spec a NULL); [contradiction|].
  destruct (Z.eqb_spec p NULL); [contradiction|].
  destruct (Z.eqb_spec x NULL); [contradiction|]. simpl.
  set (first := fun a0 p0 : F =>
                  (pow ((b - of_int (n - 1) * k) / a0) (fone / p0))%ar).
  set (body := fun (i : Z) (_ : unit) =>
                 ai ← load a i; pi ← load p i;
                 store x i (pow (k / ai) (fone / pi))%ar).
  destruct ((a0 ← load a 0; p0 ← load p 0; store x 0 (first a0 p0)) s)
    as [[[] s1]|] eqn:Hfirst.
  - pose proof Hfirst as Hshape.
    apply assign_inv in Hshape as (v & [w Hw] & _ & _ & ->).
    apply bind_inv in Hfirst as (a0 & t1 & Ha0 & Hfirst).
    apply bind_inv in Hfirst as (p0 & t2 & Hp0 & Hfirst).
    rewrite (bind_some _ _ _ _ _ Ha0), (bind_some _ _ _ _ _ Hp0).
    subst first. simpl in Hfirst. rewrite (bind_some _ _ _ _ _ Hfirst).
    apply bind_none. unfold for_.
    assert (i0 <> 0) as Hne.
    { intros ->. destruct Hptr as [->| [->| ->]].
      - apply load_inv in Ha0 as [_ Ha0]. congruence.
      - apply load_inv in Ha0 as [-> _].
        apply load_inv in Hp0 as [_ Hp0]. congruence.
      - congruence. }
    apply (for_loop_fault (fun t => mem t !! (ptr + i0) = None) body n i0).
    + intros i [] t [] t' Hinv Hstep. subst body.
      apply assign_inv in Hstep as (v' & [w' Hw'] & _ & _ & ->). simpl.
      rewrite lookup_insert_ne; [exact Hinv | congruence].
    + intros [] t Hinv. subst body. now apply (assign_fault a p x ptr).
    + lia.
    + lia.
    + simpl. rewrite lookup_insert_ne; [exact Hnone | congruence].
  - destruct (load a 0 s) as [[a0 t1]|] eqn:Ha0; [|now apply bind_none].
    rewrite (bind_some _ _ _ _ _ Ha0).
    unfold mbind at 1, prog_bind at 1 in Hfirst. rewrite Ha0 in Hfirst.
    destruct (load p 0 t1) as [[p0 t2]|] eqn:Hp0; [|now apply bind_none].
    rewrite (bind_some _ _ _ _ _ Hp0).
    unfold mbind at 1, prog_bind at 1 in Hfirst. rewrite Hp0 in Hfirst.
    subst first. simpl in Hfirst. now apply bind_none.
Qed.

(** The output array may be the coefficient array, the exponent array,
    or both: each [x[i]] is written after [a[i]] and [p[i]] are read,
    so a call in place leaves the solution of the problem that was in
    the arrays at entry. *)
Theorem pk_formula_in_place (a p x : addr) (b k : F) (n : Z)
    (A P : Z -> F) (s : state F) :
  1 <= n <= INT_MAX -> a <> NULL -> p <> NULL -> x <> NULL ->
  array_at s a n A -> array_at s p n P -> allocated s x n ->
  x = a \/ no_clobber x a n -> x = p \/ no_clobber x p n ->
  exists s', pk_formula a p b k n x s = Some (0, s') /\
    array_at s' x n (solution A P b k n) /\
    forall q, ~ (x <= q < x + n) -> mem s' !! q = mem s !! q.
Proof.
  intros [Hn _] Ha Hp Hx HA HP Hal Hxa Hxp.
  assert (forall src, x = src \/ no_clobber x src n -> no_clobber x src n)
    as Hself.
  { intros src [<-|Hnc]; [|exact Hnc]. intros i j Hi Hij Hj. lia. }
  destruct (pk_formula_run a p x b k n A P s)
    as (s' & Hrun & Hsol & Hframe & _); auto.
  exists s'. split; [exact Hrun|]. split; [|exact Hframe].
  intros i Hi. now apply Hsol.
Qed.

(** Solving twice is solving once: with the output array apart from
    the inputs, a second call on the state the first one leaves returns
    0 and leaves that state as it is. *)
Theorem pk_formula_idempotent (a p x : addr) (b k : F) (n : Z)
    (A P : Z -> F) (s : state F) :
  1 <= n <= INT_MAX -> a <> NULL -> p <> NULL -> x <> NULL ->
  array_at s a n A -> array_at s p n P -> allocated s x n ->
  disjoint x a n -> disjoint x p n ->
  exists s', pk_formula a p b k n x s = Some (0, s') /\
             pk_formula a p b k n x s' = Some (0, s').
Proof.
  intros [Hn _] Ha Hp Hx HA HP Hal Hda Hdp.
  assert (no_clobber x a n) as Hca
    by (intros i j Hi Hij Hj; apply Hda; lia).
  assert (no_clobber x p n) as Hcp
    by (intros i j Hi Hij Hj; apply Hdp; lia).
  destruct (pk_formula_run a p x b k n A P s)
    as (s1 & Hrun1 & Hsol1 & Hframe1 & Herr1); try assumption.
  destruct (pk_formula_run a p x b k n A P s1)
    as (s2 & Hrun2 & Hsol2 & Hframe2 & Herr2); try assumption.
  - intros i Hi. rewrite Hframe1; [now apply HA|].
    intros Hin. apply (Hda (a + i - x) i); lia.
  - intros i Hi. rewrite Hframe1; [now apply HP|].
    intros Hin. apply (Hdp (p + i - x) i); lia.
  - intros i Hi. rewrite Hsol1 by lia. eauto.
  - exists s1. split; [exact Hrun1|]. rewrite Hrun2. do 2 f_equal.
    destruct s1 as [m1 e1], s2 as [m2 e2]. simpl in *. f_equal.
    + apply map_eq. intros q.
      destruct (Z_le_gt_dec x q) as [Hle|Hgt];
        [destruct (Z_lt_ge_dec q (x + n)) as [Hlt|Hge]|].
      * replace q with (x + (q - x)) by lia.
        rewrite Hsol1, Hsol2 by lia. reflexivity.
      * apply Hframe2. lia.
      * apply Hframe2. lia.
    + exact Herr2.
Qed.

End SolverMore.

(** ** More on the verifier *)

Section VerifierMore.
Context {F : Type} {Ar : Arith F}.

(** One term of the summation loop. *)
Lemma term_inv (x a p : addr) i (sum : F) s sum' s' :
  (ai ← load a i; xi ← load x i; pi ← load p i;
   mret (sum + ai * pow xi pi)%ar) s = Some (sum', s') ->
  s' = s /\ is_Some (mem s !! (a + i)) /\ is_Some (mem s !! (x + i)) /\
  is_Some (mem s !! (p + i)).
Proof.
  intros Hrun.
  apply bind_inv in Hrun as (ai & s1 & Ha & Hrun).
  apply load_inv in Ha as [-> Ha].
  apply bind_inv in Hrun as (xi & s2 & Hx & Hrun).
  apply load_inv in Hx as [-> Hx].
  apply bind_inv in Hrun as (pi & s3 & Hp & Hrun).
  apply load_inv in Hp as [-> Hp].
  injection Hrun as _ <-. repeat split; eauto.
Qed.

Lemma sum_loop_pure (x a p : addr) (n : Z) fuel i (sum : F) s sum' s' :
  for_loop fuel i n (fun i (sum : F) =>
                       ai ← load a i; xi ← load x i; pi ← load p i;
                       mret (sum + ai * pow xi pi)%ar) sum s
    = Some (sum', s') ->
  s' = s.
Proof.
  intros Hrun.
  destruct (for_loop_post (fun _ (_ : F) t => t = s) _ n
              (fun i acc t acc' t' _ Ht Hstep =>
                 eq_trans (proj1 (term_inv x a p i acc t acc' t' Hstep)) Ht)
              _ _ _ _ _ _ eq_refl Hrun) as (j & _ & Hj).
  exact Hj.
Qed.

(** The return codes of the verifier.  Whenever the call returns, it
    returns 0 on a NULL argument, with the memory untouched and one
    diagnostic on [stderr]; otherwise it returns 0 or 1, nothing goes
    to [stderr], no cell but [*error] is written, and the flag is 1
    exactly when the error it stored is below the tolerance. *)
Theorem verify_solution_return_codes (x a p error : addr) (b : F) (n : Z)
    (s : state F) (rc : Z) (s' : state F) :
  verify_solution x a p b n error s = Some (rc, s') ->
  (rc = 0 /\ (x = NULL \/ a = NULL \/ p = NULL \/ error = NULL) /\
   mem s' = mem s /\ stderr s' = stderr s ++ [msg_null]) \/
  (x <> NULL /\ a <> NULL /\ p <> NULL /\ error <> NULL /\
   stderr s' = stderr s /\
   (forall q, q <> error -> mem s' !! q = mem s !! q) /\
   exists e, mem s' !! error = Some e /\
             rc = if (e <? ftol)%ar then 1 else 0).
Proof.
  unfold verify_solution.
  destruct (Z.eqb_spec x NULL) as [Hx|Hx];
    [intros [= <- <-]; left; repeat split; auto|].
  destruct (Z.eqb_spec a NULL) as [Ha|Ha];
    [intros [= <- <-]; left; repeat split; auto|].
  destruct (Z.eqb_spec p NULL) as [Hp|Hp];
    [intros [= <- <-]; left; repeat split; auto|].
  destruct (Z.eqb_spec error NULL) as [He|He];
    [intros [= <- <-]; left; repeat split; auto 6|].
  simpl. intros Hrun. right.
  apply bind_inv in Hrun as (sum & s1 & Hloop & Hrun).
  apply sum_loop_pure in Hloop as ->.
  apply bind_inv in Hrun as ([] & s2 & Hst & Hrun).
  apply store_inv in Hst as [_ ->].
  apply bind_inv in Hrun as (e & s3 & Hld & Hrun).
  apply load_inv in Hld as [-> Hld]. simpl in Hld.
  injection Hrun as <- <-. rewrite Z.add_0_r in *.
  repeat split; try assumption.
  - intros q Hq. simpl. now apply lookup_insert_ne.
  - exists e. split; [exact Hld | reflexivity].
Qed.

(** The verifier reads [x[i]], [a[i]], [p[i]] for every [i < n] and
    writes [*error] without a check of its own: when one of these
    cells is missing the call runs out of bounds (it faults). *)
Theorem verify_solution_out_of_bounds (x a p error ptr : addr) (b : F)
    (n i0 : Z) (s : state F) :
  x <> NULL -> a <> NULL -> p <> NULL -> error <> NULL ->
  ((ptr = x \/ ptr = a \/ ptr = p) /\ 0 <= i0 < n /\
   mem s !! (ptr + i0) = None) \/ mem s !! error = None ->
  verify_solution x a p b n error s = None.
Proof.
  intros Hx Ha Hp He Hmiss. unfold verify_solution.
  destruct (Z.eqb_spec x NULL); [contradiction|].
  destruct (Z.eqb_spec a NULL); [contradiction|].
  destruct (Z.eqb_spec p NULL); [contradiction|].
  destruct (Z.eqb_spec error NULL); [contradiction|]. simpl.
  destruct Hmiss as [(Hptr & Hi0 & Hnone) | Hnone].
  - apply bind_none. unfold for_.
    apply (for_loop_fault (fun t => t = s) _ n i0).
    + intros i acc t acc' t' -> Hstep. now apply term_inv in Hstep.
    + intros acc t ->.
      match goal with |- ?c s = None =>
        destruct (c s) as [[acc' t']|] eqn:Hstep; [|reflexivity] end.
      apply term_inv in Hstep as (_ & [va Hva] & [vx Hvx] & [vp Hvp]).
      destruct Hptr as [->| [->| ->]]; congruence.
    + lia.
    + lia.
    + reflexivity.
  - match goal with |- (?c ≫= ?k) s = None =>
      destruct (c s) as [[sum s1]|] eqn:Hloop; [|now apply bind_none] end.
    rewrite (bind_some _ _ _ _ _ Hloop).
    apply sum_loop_pure in Hloop as ->.
    apply bind_none. unfold store. rewrite Z.add_0_r. now rewrite Hnone.
Qed.

(** Verifying twice is verifying once: with the error cell outside the
    three arrays, a second call on the state the first one leaves
    returns the same flag and leaves that state as it is. *)
Theorem verify_solution_idempotent (x a p error : addr) (b : F) (n : Z)
    (X A P : Z -> F) (s : state F) :
  x <> NULL -> a <> NULL -> p <> NULL -> error <> NULL ->
  array_at s x n X -> array_at s a n A -> array_at s p n P ->
  is_Some (mem s !! error) ->
  (forall i, 0 <= i < n ->
     error <> x + i /\ error <> a + i /\ error <> p + i) ->
  exists flag s',
    verify_solution x a p b n error s = Some (flag, s') /\
    verify_solution x a p b n error s' = Some (flag, s').
Proof.
  intros Hx Ha Hp He HX HA HP Hal Hout.
  rewrite (verify_solution_run x a p error b n X A P s) by assumption.
  cbv zeta.
  set (err := fabs (constraint_sum A X P (Z.to_nat n) - b)%ar).
  eexists. eexists. split; [reflexivity|].
  rewrite (verify_solution_run x a p error b n X A P); try assumption.
  - cbv zeta. fold err. simpl. now rewrite insert_insert_eq.
  - intros i Hi. simpl. rewrite lookup_insert_ne; [now apply HX|].
    destruct (Hout i Hi) as (H1 & _ & _). exact H1.
  - intros i Hi. simpl. rewrite lookup_insert_ne; [now apply HA|].
    destruct (Hout i Hi) as (_ & H2 & _). exact H2.
  - intros i Hi. simpl. rewrite lookup_insert_ne; [now apply HP|].
    destruct (Hout i Hi) as (_ & _ & H3). exact H3.
  - simpl. rewrite lookup_insert_eq. eauto.
Qed.

End VerifierMore.

(** ** More on the verifier in binary64 *)

Section Binary64More.
Variable libm_pow : float -> float -> float.

Local Abbreviation C := (binary64 libm_pow).

Lemma tolerance_shape :
  exists m e, Prim2SF 0x1.b7cdfd9d7bdbbp-34 = S754_finite false m e.
Proof. vm_compute. eauto. Qed.

(** An error below the tolerance comes from a finite sum and a finite
    target. *)
Lemma lt_tol_finite (sum b : float) :
  PrimFloat.ltb (PrimFloat.abs (sum - b)) 0x1.b7cdfd9d7bdbbp-34 = true ->
  is_finite sum = true /\ is_finite b = true.
Proof.
  rewrite ltb_spec, abs_spec, sub_spec, !is_finite_spec.
  destruct tolerance_shape as (m & e & ->).
  destruct (Prim2SF sum) as [ss|ss| |ss ms es];
    destruct (Prim2SF b) as [sb|sb| |sb mb eb];
    try (split; eauto 6; fail); intros Hlt; exfalso;
    try discriminate Hlt;
    try (destruct ss, sb; discriminate Hlt);
    try (destruct sb; discriminate Hlt);
    try (destruct ss; discriminate Hlt).
Qed.

(** An error below the tolerance is not below zero. *)
Lemma lt_tol_nonneg (v : float) :
  PrimFloat.ltb (PrimFloat.abs v) 0x1.b7cdfd9d7bdbbp-34 = true ->
  PrimFloat.leb 0 (PrimFloat.abs v) = true.
Proof.
  rewrite ltb_spec, leb_spec, abs_spec.
  change (Prim2SF 0) with (S754_zero false).
  destruct (Prim2SF v) as [s|s| |s m e]; try reflexivity.
  discriminate.
Qed.

(** A finite number minus itself is [+0]. *)
Lemma sub_self (v : float) : is_finite v = true -> (v - v)%float = 0%float.
Proof.
  rewrite is_finite_spec. intros Hv. apply Prim2SF_inj. rewrite sub_spec.
  change (Prim2SF 0) with (S754_zero false).
  destruct Hv as [[s ->] | (s & m & e & ->)].
  - now destruct s.
  - unfold SF64sub, SFsub. now rewrite Z.sub_diag.
Qed.

(** A verdict "valid" is a statement about finite numbers: when the
    verifier returns 1, the target [b] and the recomputed sum are
    finite, and the error it stored lies in [0, 1e-10). *)
Theorem verify_valid_finite (x a p error : addr) (b : float) (n : Z)
    (X A P : Z -> float) (s s' : state float) :
  x <> NULL -> a <> NULL -> p <> NULL -> error <> NULL ->
  array_at s x n X -> array_at s a n A -> array_at s p n P ->
  is_Some (mem s !! error) ->
  verify_solution (Ar := C) x a p b n error s = Some (1, s') ->
  is_finite b = true /\
  is_finite (constraint_sum (Ar := C) A X P (Z.to_nat n)) = true /\
  exists e, mem s' !! error = Some e /\
            PrimFloat.leb 0 e = true /\
            PrimFloat.ltb e 0x1.b7cdfd9d7bdbbp-34 = true.
Proof.
  intros Hx Ha Hp He HX HA HP Hal.
  rewrite (verify_solution_run (Ar := C) x a p error b n X A P s)
    by assumption.
  cbv zeta. simpl fabs. simpl fsub. simpl flt. simpl ftol.
  set (sum := constraint_sum (Ar := C) A X P (Z.to_nat n)).
  destruct (PrimFloat.ltb (PrimFloat.abs (sum - b)) _) eqn:Hlt;
    [|discriminate].
  intros [= <-]. destruct (lt_tol_finite _ _ Hlt) as [Hs Hb].
  split; [exact Hb|]. split; [exact Hs|].
  exists (PrimFloat.abs (sum - b)). simpl.
  split; [apply lookup_insert_eq|]. split; [|exact Hlt].
  now apply lt_tol_nonneg.
Qed.

(** A candidate whose recomputed sum is the target, bit for bit, and
    finite, is accepted: the error stored is [+0] and the flag is 1. *)
Theorem verify_solution_exact_hit (x a p error : addr) (b : float) (n : Z)
    (X A P : Z -> float) (s : state float) :
  x <> NULL -> a <> NULL -> p <> NULL -> error <> NULL ->
  array_at s x n X -> array_at s a n A -> array_at s p n P ->
  is_Some (mem s !! error) ->
  constraint_sum (Ar := C) A X P (Z.to_nat n) = b ->
  is_finite b = true ->
  verify_solution (Ar := C) x a p b n error s =
    Some (1, State (<[error := 0%float]> (mem s)) (stderr s)).
Proof.
  intros Hx Ha Hp He HX HA HP Hal Hsum Hb.
  rewrite (verify_solution_run (Ar := C) x a p error b n X A P s)
    by assumption.
  cbv zeta. rewrite Hsum. simpl fabs. simpl fsub. simpl flt. simpl ftol.
  now rewrite (sub_self b Hb).
Qed.

End Binary64More.


(** ** The round trip and the residual in binary64 *)

Section Binary64RoundTrip.
Variable libm_pow : float -> float -> float.

Local Abbreviation C := (binary64 libm_pow).



End Binary64RoundTrip.

(** ** The printing helper *)

Section Printing.
Context {F : Type}.
Open Scope string_scope.

Lemma str_app_assoc (s1 s2 s3 : string) :
  (s1 ++ s2) ++ s3 = s1 ++ (s2 ++ s3).
Proof.
  induction s1 as [|c s1 IH]; [reflexivity|].
  change (String c ((s1 ++ s2) ++ s3) = String c (s1 ++ s2 ++ s3)).
  now rewrite IH.
Qed.

Lemma str_app_nil_r (s1 : string) : s1 ++ "" = s1.
Proof.
  induction s1 as [|c s1 IH]; [reflexivity|].
  change (String c (s1 ++ "") = String c s1). now rewrite IH.
Qed.

(** Joining one more piece to a joined list. *)
Lemma concat_snoc (sep : string) (l : list string) (y : string) :
  String.concat sep (l ++ [y]) =
    match l with
    | [] => y
    | _ :: _ => String.concat sep l ++ sep ++ y
    end.
Proof.
  induction l as [|h t IH]; [reflexivity|].
  change ((h :: t) ++ [y])%list with (h :: (t ++ [y]))%list.
  destruct t as [|h' t'].
  - reflexivity.
  - change (String.concat sep (h :: (h' :: t') ++ [y])%list)
      with (h ++ sep ++ String.concat sep ((h' :: t') ++ [y])%list).
    rewrite IH.
    change (String.concat sep (h :: h' :: t'))
      with (h ++ sep ++ String.concat sep (h' :: t')).
    now rewrite !str_app_assoc.
Qed.

(** What [print_array] prints: the name, [": ["], the formatted cells
    joined by [", "] (no separator after the last one), and ["]"] with
    a newline; for [n <= 0] the brackets are empty.  It reads [n] cells
    and writes none. *)
Theorem print_array_text (fmt4 : F -> string) (name : string)
    (arr : addr) (n : Z) (V : Z -> F) (s : state F) :
  array_at s arr n V ->
  print_array fmt4 name arr n s =
    Some (name ++ ": ["
          ++ String.concat ", " (map (fun i => fmt4 (V i)) (seqZ 0 n))
          ++ "]" ++ nl, s).
Proof.
  intros HV. unfold print_array.
  set (cells := fun i : Z => map (fun j => fmt4 (V j)) (seqZ 0 i)).
  destruct (for_inv
              (fun i (out : string) t =>
                 t = s /\ (0 <= i)%Z /\
                 out = (name ++ ": [") ++ String.concat ", " (cells i)
                       ++ (if (0 <? i)%Z && (i <? n)%Z then ", " else ""))
              (fun i (out : string) =>
                 v ← load arr i;
                 mret (if (i <? n - 1)%Z
                       then (out ++ fmt4 v) ++ ", "
                       else out ++ fmt4 v))
              0%Z n (name ++ ": [") s) as (out & s' & Hrun & -> & _ & ->).
  - intros i out t Hi (-> & Hpos & ->).
    eexists. exists s. split.
    + rewrite (bind_some _ _ s (V i) s) by (apply load_some, HV; lia).
      reflexivity.
    + split; [reflexivity|]. split; [lia|].
      assert (cells (i + 1)%Z = (cells i ++ [fmt4 (V i)])%list) as ->.
      { unfold cells. rewrite seqZ_app by lia. rewrite map_app.
        rewrite (seqZ_cons _ 1) by lia.
        now rewrite (seqZ_nil _ (Z.pred 1)) by lia. }
      rewrite concat_snoc.
      destruct (Z.ltb_spec i n) as [_|]; [|lia].
      replace (0 <? i + 1)%Z with true by (symmetry; apply Z.ltb_lt; lia).
      replace (i + 1 <? n)%Z with (i <? n - 1)%Z
        by (destruct (Z.ltb_spec i (n - 1)), (Z.ltb_spec (i + 1) n);
            reflexivity || lia).
      destruct (Z.ltb_spec 0 i) as [Hgt|Hle]; simpl andb.
      * assert (cells i <> []) as Hne.
        { unfold cells. rewrite (seqZ_cons 0 i) by lia. discriminate. }
        destruct (cells i) as [|h t]; [contradiction|].
        destruct (i <? n - 1)%Z; simpl andb;
          rewrite ?str_app_nil_r, !str_app_assoc; reflexivity.
      * assert (cells i = []) as ->
          by (unfold cells; now rewrite seqZ_nil by lia).
        simpl String.concat. simpl app.
        destruct (i <? n - 1)%Z; simpl andb;
          rewrite ?str_app_nil_r, ?str_app_assoc; reflexivity.
  - split; [reflexivity|]. split; [lia|].
    unfold cells. rewrite seqZ_nil by lia. simpl.
    now rewrite !str_app_nil_r.
  - rewrite (bind_some _ _ _ _ _ Hrun). simpl. f_equal. f_equal.
    fold (cells (Z.max 0 n)).
    assert (cells (Z.max 0 n) = cells n) as ->.
    { unfold cells. destruct (Z.le_ge_cases n 0).
      - now rewrite !seqZ_nil by lia.
      - now replace (Z.max 0 n) with n by lia. }
    fold (cells n).
    replace ((0 <? Z.max 0 n)%Z && (Z.max 0 n <? n)%Z) with false
      by (symmetry; apply andb_false_iff; right; apply Z.ltb_ge; lia).
    now rewrite str_app_nil_r, !str_app_assoc.
Qed.

End Printing.

(** ** The further properties on concrete calls *)

Section MoreExamples.
Open Scope float_scope.

(** Solving in place, over the coefficient array. *)
Lemma pk_formula_in_place_witness :
  exists s',
    pk_formula (Ar := c99) 100 200 25 1 2 100
      (layout [1; 1] [2; 2] [0; 0] 0) = Some (0%Z, s') /\
    mem s' !! 101%Z = Some (pow_ref (1 / 1) (1 / 2)).
Proof.
  destruct (pk_formula_in_place (Ar := c99) 100 200 100 25 1 2
              (fun _ => 1) (fun _ => 2) (layout [1; 1] [2; 2] [0; 0] 0))
    as (s' & Hrun & Hsol & _);
    [ unfold INT_MAX; lia | discriminate | discriminate | discriminate
    | cells | cells | cells | left; reflexivity | right; apart | ].
  exists s'. split; [exact Hrun|]. exact (Hsol 1%Z ltac:(lia)).
Defined.

Lemma pk_formula_idempotent_witness :
  exists s',
    pk_formula (Ar := c99) 100 200 25 1 2 300
      (layout [1; 1] [2; 2] [0; 0] 0) = Some (0%Z, s') /\
    pk_formula (Ar := c99) 100 200 25 1 2 300 s' = Some (0%Z, s').
Proof.
  apply (pk_formula_idempotent (Ar := c99) 100 200 300 25 1 2
           (fun _ => 1) (fun _ => 2));
    [ unfold INT_MAX; lia | discriminate | discriminate | discriminate
    | cells | cells | cells | apart | apart ].
Defined.

(** A call with [n = 0] and a NULL output array: the size diagnostic. *)
Lemma pk_formula_return_codes_witness :
  exists rc s',
    pk_formula (Ar := c99) 100 200 25 1 0 NULL
      (layout [1] [2] [7] 0) = Some (rc, s') /\
    (rc = (-1)%Z /\ stderr s' = [msg_size] \/ rc = 0%Z).
Proof.
  eexists _, _. split; [reflexivity|].
  destruct (pk_formula_return_codes (Ar := c99) 100 200 NULL 25 1 0
              (layout [1] [2] [7] 0) _ _ eq_refl)
    as [(Hrc & _ & _ & Herr) | (Hrc & _)]; [left | right; exact Hrc].
  split; [exact Hrc | exact Herr].
Defined.

(** Two variables asked of an output array of one cell. *)
Lemma pk_formula_out_of_bounds_witness :
  pk_formula (Ar := c99) 100 200 25 1 2 300
    (layout [1; 1] [2; 2] [0] 0) = None.
Proof.
  apply (pk_formula_out_of_bounds (Ar := c99) 100 200 300 300 25 1 2 1);
    [ discriminate | discriminate | discriminate
    | right; right; reflexivity | lia | reflexivity ].
Defined.

Lemma verify_solution_return_codes_witness :
  exists rc s',
    verify_solution (Ar := c99) 300 100 200 5 1 400
      (layout [1] [1] [1] 7) = Some (rc, s') /\
    mem s' !! 300%Z = Some 1 /\ stderr s' = [].
Proof.
  eexists _, _. split; [reflexivity|].
  destruct (verify_solution_return_codes (Ar := c99) 300 100 200 400 5 1
              (layout [1] [1] [1] 7) _ _ eq_refl)
    as [(_ & [H|[H|[H|H]]] & _) | (_ & _ & _ & _ & Herr & Hframe & _)];
    try discriminate H.
  split; [|exact Herr]. rewrite Hframe by discriminate. reflexivity.
Defined.

(** A state without an error cell. *)
Lemma verify_solution_out_of_bounds_witness :
  verify_solution (Ar := c99) 300 100 200 5 1 500
    (layout [1] [1] [1] 7) = None.
Proof.
  apply (verify_solution_out_of_bounds (Ar := c99) 300 100 200 500 300
           5 1 0);
    [ discriminate | discriminate | discriminate | discriminate
    | right; reflexivity ].
Defined.

Lemma verify_solution_idempotent_witness :
  exists flag s',
    verify_solution (Ar := c99) 300 100 200 5 1 400
      (layout [1] [1] [1] 7) = Some (flag, s') /\
    verify_solution (Ar := c99) 300 100 200 5 1 400 s' = Some (flag, s').
Proof.
  apply (verify_solution_idempotent (Ar := c99) 300 100 200 400 5 1
           (fun _ => 1) (fun _ => 1) (fun _ => 1));
    [ discriminate | discriminate | discriminate | discriminate
    | cells | cells | cells | eexists; reflexivity
    | intros i Hi; repeat split; lia ].
Defined.

(** The solution [x = [2]] of [1 * x^2 = 4] is reported valid. *)
Lemma verify_valid_finite_witness :
  is_finite 4 = true /\
  is_finite (constraint_sum (Ar := c99) (fun _ => 1) (fun _ => 2)
               (fun _ => 2) 1) = true.
Proof.
  destruct (verify_valid_finite pow_ref 300 100 200 400 4 1
              (fun _ => 2) (fun _ => 1) (fun _ => 2)
              (layout [1] [2] [2] 7)
              (State (<[400%Z := 0]> (mem (layout [1] [2] [2] 7))) []))
    as (Hb & Hs & _);
    [ discriminate | discriminate | discriminate | discriminate
    | cells | cells | cells | eexists; reflexivity | reflexivity | ].
  split; [exact Hb | exact Hs].
Defined.

Lemma verify_solution_exact_hit_witness :
  verify_solution (Ar := c99) 300 100 200 4 1 400
    (layout [1] [2] [2] 7) =
    Some (1%Z, State (<[400%Z := 0]> (mem (layout [1] [2] [2] 7))) []).
Proof.
  apply (verify_solution_exact_hit pow_ref 300 100 200 400 4 1
           (fun _ => 2) (fun _ => 1) (fun _ => 2)
           (layout [1] [2] [2] 7));
    [ discriminate | discriminate | discriminate | discriminate
    | cells | cells | cells | eexists; reflexivity
    | reflexivity | reflexivity ].
Defined.



(** An array of three ones, each cell printed as ["1.0000"]. *)
Lemma print_array_text_witness :
  print_array (fun _ : float => "1.0000"%string) "x"
    300 3 (layout [1] [2] [1; 1; 1] 0) =
    Some (("x: [1.0000, 1.0000, 1.0000]" ++ nl)%string,
          layout [1] [2] [1; 1; 1] 0).
Proof.
  apply (print_array_text (fun _ : float => "1.0000"%string) "x"
           300 3 (fun _ => 1) (layout [1] [2] [1; 1; 1] 0)).
  cells.
Defined.

End MoreExamples.

